(** * A shallow embedding of the chess engine of [chess_game.py]

    The development models the classes [Piece] and [Board] of the program:
    the 8x8 grid of optional pieces, pseudo-move generation, attack and
    check detection, the apply-then-undo legality test, move application
    and the evaluation of checkmate and stalemate.  Of [ChessGame] it
    models the event handlers ([handle_events], [handle_click], [update],
    [ai_move], [reset_game]); the rendering code is not modelled.

    Conventions.
    - Python integers are [Z]; a square is a pair (row, column).
    - [self.grid] is a list of rows, each a list of optional pieces.
    - Methods that only read the board are pure functions of the grid.
    - Methods that assign to fields of the board, and may raise, live in a
      state-and-exception monad [M] over [Board]. *)

From Stdlib Require Import ZArith Lia List Bool.
From stdpp Require Import base list.
Import ListNotations.
Open Scope Z_scope.

(** ** Data model *)

(** [Color = str], one of ['w'] and ['b']. *)
Inductive Color := White | Black.

(** [PieceType = str], one of ['K','Q','R','B','N','P']. *)
Inductive PieceType := King | Queen | Rook | Bishop | Knight | Pawn.

(** [class Piece]: a colour and a kind, never mutated after creation. *)
Record Piece := mkPiece { color : Color; kind : PieceType }.

Abbreviation Square := (Z * Z)%type.
Abbreviation Move := (Square * Square * option PieceType)%type.
Abbreviation Grid := (list (list (option Piece))).

(** The two non-[None] values of [Board.game_over]. *)
Inductive Outcome := checkmate | stalemate.

(** [class Board]. *)
Record Board := mkBoard {
  grid : Grid;
  turn : Color;
  halfmove_clock : Z;
  fullmove_number : Z;
  game_over : option Outcome;
  winner : option Color
}.

Definition mv_from (mv : Move) : Square := fst (fst mv).
Definition mv_to (mv : Move) : Square := snd (fst mv).
Definition mv_promo (mv : Move) : option PieceType := snd mv.

Definition color_eqb (a b : Color) : bool :=
  match a, b with
  | White, White | Black, Black => true
  | _, _ => false
  end.

Definition kind_eqb (a b : PieceType) : bool :=
  match a, b with
  | King, King | Queen, Queen | Rook, Rook
  | Bishop, Bishop | Knight, Knight | Pawn, Pawn => true
  | _, _ => false
  end.

Definition sq_eqb (a b : Square) : bool :=
  (fst a =? fst b) && (snd a =? snd b).

(** ['b' if color == 'w' else 'w'] *)
Definition other (c : Color) : Color :=
  match c with White => Black | Black => White end.

(** ** Python list indexing *)

Inductive exn := IndexError | AttributeError.

Inductive Result (A : Type) :=
| Ok (a : A)
| Raise (e : exn).
Arguments Ok {A} a.
Arguments Raise {A} e.

(** The position designated by index [i] in a list of length [n]:
    negative indices count from the end, anything outside
    [-n .. n-1] is an [IndexError]. *)
Definition py_norm (n : nat) (i : Z) : option nat :=
  let j := if i <? 0 then i + Z.of_nat n else i in
  if (0 <=? j) && (j <? Z.of_nat n) then Some (Z.to_nat j) else None.

(** [l[i]] *)
Definition py_get {A} (l : list A) (i : Z) : Result A :=
  match py_norm (length l) i with
  | Some j => match l !! j with Some x => Ok x | None => Raise IndexError end
  | None => Raise IndexError
  end.

(** [self.grid[r][c]] *)
Definition grid_get (g : Grid) (r c : Z) : Result (option Piece) :=
  match py_get g r with
  | Ok row => py_get row c
  | Raise e => Raise e
  end.

(** [self.grid[r][c] = v]: the row object [self.grid[r]] is updated in
    place; rows are distinct objects, so only row [r] changes. *)
Definition grid_set (g : Grid) (r c : Z) (v : option Piece) : Result Grid :=
  match py_norm (length g) r with
  | Some i =>
      match g !! i with
      | Some row =>
          match py_norm (length row) c with
          | Some j => Ok (<[i := <[j := v]> row]> g)
          | None => Raise IndexError
          end
      | None => Raise IndexError
      end
  | None => Raise IndexError
  end.

(** The grid of a [Board] is always 8 rows of 8 cells: [__init__] and
    [clone] build it so and no method changes its shape. *)
Definition wf_grid (g : Grid) : Prop :=
  length g = 8%nat /\ Forall (fun row => length row = 8%nat) g.

Definition wf_gridb (g : Grid) : bool :=
  (Nat.eqb (length g) 8) && forallb (fun row => Nat.eqb (length row) 8) g.

(** ** Read-only queries *)

(** [in_bounds] *)
Definition in_bounds (r c : Z) : bool :=
  (0 <=? r) && (r <? 8) && ((0 <=? c) && (c <? 8)).

(** The piece read by [self.grid[r][c]] inside the read-only methods.
    Every such read in the program is guarded by [in_bounds] or driven by
    [range(8)], so on an 8x8 grid it never raises (lemma
    [grid_get_in_bounds] below); the value fixed for a raising read is
    never used. *)
Definition cell (g : Grid) (r c : Z) : option Piece :=
  match grid_get g r c with
  | Ok p => p
  | Raise _ => None
  end.

(** [empty] *)
Definition empty (g : Grid) (r c : Z) : bool :=
  match cell g r c with None => true | Some _ => false end.

(** [occupied_by] *)
Definition occupied_by (g : Grid) (r c : Z) (col : Color) : bool :=
  match cell g r c with
  | Some p => color_eqb (color p) col
  | None => false
  end.

(** [range(8)] *)
Definition range8 : list Z := [0; 1; 2; 3; 4; 5; 6; 7].

(** The squares in the order of the nested loops
    [for r in range(8): for c in range(8)]. *)
Definition squares : list Square :=
  flat_map (fun r => map (fun c => (r, c)) range8) range8.

(** ** Pseudo-move generation *)

(** Promotion marker of a pawn move landing on row [nr]. *)
Definition promo_of (nr : Z) : option PieceType :=
  if (nr =? 0) || (nr =? 7) then Some Queen else None.

(** The [p.kind == 'P'] branch of [generate_pseudo_moves_from]. *)
Definition pawn_moves (g : Grid) (r c : Z) (col : Color) : list Move :=
  let dir := if color_eqb col White then -1 else 1 in
  let start_row := if color_eqb col White then 6 else 1 in
  let nr := r + dir in
  (if in_bounds nr c && empty g nr c then
     [((r, c), (nr, c), promo_of nr)] ++
     (let nr2 := r + 2 * dir in
      if (r =? start_row) && empty g nr2 c
      then [((r, c), (nr2, c), None)] else [])
   else []) ++
  flat_map (fun dc =>
    let nr := r + dir in
    let nc := c + dc in
    if in_bounds nr nc && negb (empty g nr nc) then
      if negb (occupied_by g nr nc col)
      then [((r, c), (nr, nc), promo_of nr)] else []
    else []) [-1; 1].

Definition knight_offsets : list (Z * Z) :=
  [(-2, -1); (-2, 1); (-1, -2); (-1, 2); (1, -2); (1, 2); (2, -1); (2, 1)].

(** The [p.kind == 'N'] branch. *)
Definition knight_moves (g : Grid) (r c : Z) (col : Color) : list Move :=
  flat_map (fun d =>
    let nr := r + fst d in
    let nc := c + snd d in
    if negb (in_bounds nr nc) then []
    else if occupied_by g nr nc col then []
    else [((r, c), (nr, nc), None)]) knight_offsets.

Definition diagonals : list (Z * Z) := [(-1, -1); (-1, 1); (1, -1); (1, 1)].
Definition orthogonals : list (Z * Z) := [(-1, 0); (1, 0); (0, -1); (0, 1)].

(** One ray of a sliding piece: the loop [while self.in_bounds(nr, nc)].
    [fuel] bounds the number of iterations; [ray_fuel] below shows that
    8 is enough for every direction the program uses. *)
Fixpoint ray (fuel : nat) (g : Grid) (col : Color)
    (r c nr nc dr dc : Z) : list Move :=
  match fuel with
  | O => []
  | S fuel' =>
      if in_bounds nr nc then
        if occupied_by g nr nc col then []
        else ((r, c), (nr, nc), None) ::
             (if negb (empty g nr nc) then []
              else ray fuel' g col r c (nr + dr) (nc + dc) dr dc)
      else []
  end.

Definition directions (k : PieceType) : list (Z * Z) :=
  (match k with Bishop | Queen => diagonals | _ => [] end) ++
  (match k with Rook | Queen => orthogonals | _ => [] end).

(** The [p.kind in ('B','R','Q')] branch. *)
Definition slider_moves (g : Grid) (r c : Z) (p : Piece) : list Move :=
  flat_map (fun d =>
    ray 8 g (color p) r c (r + fst d) (c + snd d) (fst d) (snd d))
    (directions (kind p)).

(** The [p.kind == 'K'] branch. *)
Definition king_moves (g : Grid) (r c : Z) (col : Color) : list Move :=
  flat_map (fun dr =>
    flat_map (fun dc =>
      if (dr =? 0) && (dc =? 0) then []
      else
        let nr := r + dr in
        let nc := c + dc in
        if negb (in_bounds nr nc) then []
        else if occupied_by g nr nc col then []
        else [((r, c), (nr, nc), None)]) [-1; 0; 1]) [-1; 0; 1].

(** [generate_pseudo_moves_from] *)
Definition generate_pseudo_moves_from (g : Grid) (sq : Square) (p : Piece)
    : list Move :=
  let '(r, c) := sq in
  match kind p with
  | Pawn => pawn_moves g r c (color p)
  | Knight => knight_moves g r c (color p)
  | Bishop | Rook | Queen => slider_moves g r c p
  | King => king_moves g r c (color p)
  end.

(** ** Attack and check detection *)

Definition is_king_of (col : Color) (o : option Piece) : bool :=
  match o with
  | Some p => color_eqb (color p) col && kind_eqb (kind p) King
  | None => false
  end.

(** [king_position]: the first square, in row-major order, holding a King
    of the colour. *)
Definition king_position (g : Grid) (col : Color) : option Square :=
  find (fun sq => is_king_of col (cell g (fst sq) (snd sq))) squares.

(** [is_square_attacked_by] *)
Definition is_square_attacked_by (g : Grid) (sq : Square) (attacker : Color)
    : bool :=
  existsb (fun s =>
    match cell g (fst s) (snd s) with
    | Some p =>
        color_eqb (color p) attacker &&
        existsb (fun mv => sq_eqb (mv_to mv) sq)
                (generate_pseudo_moves_from g s p)
    | None => false
    end) squares.

(** [in_check] *)
Definition in_check (g : Grid) (col : Color) : bool :=
  match king_position g col with
  | None => false
  | Some kpos => is_square_attacked_by g kpos (other col)
  end.

(** ** The state-and-exception monad of the mutating methods *)

Definition M (A : Type) : Type := Board -> Result (A * Board).

Definition ret {A} (a : A) : M A := fun b => Ok (a, b).

Definition bind {A B} (m : M A) (k : A -> M B) : M B :=
  fun b =>
    match m b with
    | Ok (a, b') => k a b'
    | Raise e => Raise e
    end.

Definition raise {A} (e : exn) : M A := fun _ => Raise e.

Notation "'let*' x ':=' m 'in' k" := (bind m (fun x => k))
  (at level 10, x name, m at level 100, k at level 200).
Notation "m ';;;' k" := (bind m (fun _ => k))
  (at level 100, k at level 200, right associativity).

Definition gets {A} (f : Board -> A) : M A := fun b => Ok (f b, b).
Definition modify (f : Board -> Board) : M unit := fun b => Ok (tt, f b).

Definition with_grid (g : Grid) (b : Board) : Board :=
  mkBoard g (turn b) (halfmove_clock b) (fullmove_number b)
          (game_over b) (winner b).
Definition with_turn (t : Color) (b : Board) : Board :=
  mkBoard (grid b) t (halfmove_clock b) (fullmove_number b)
          (game_over b) (winner b).
Definition with_fullmove (n : Z) (b : Board) : Board :=
  mkBoard (grid b) (turn b) (halfmove_clock b) n (game_over b) (winner b).
Definition with_result (o : option Outcome) (w : option Color) (b : Board)
    : Board :=
  mkBoard (grid b) (turn b) (halfmove_clock b) (fullmove_number b) o w.

(** [self.grid[r][c]] as an expression. *)
Definition get_cell (r c : Z) : M (option Piece) :=
  fun b =>
    match grid_get (grid b) r c with
    | Ok p => Ok (p, b)
    | Raise e => Raise e
    end.

(** [self.grid[r][c] = v] as a statement. *)
Definition set_cell (r c : Z) (v : option Piece) : M unit :=
  fun b =>
    match grid_set (grid b) r c v with
    | Ok g' => Ok (tt, with_grid g' b)
    | Raise e => Raise e
    end.

(** A [for] loop that threads a local accumulator. *)
Fixpoint foldM {A S} (body : S -> A -> M S) (l : list A) (acc : S) : M S :=
  match l with
  | [] => ret acc
  | x :: l' => let* acc' := body acc x in foldM body l' acc'
  end.

(** [piece if promo is None else Piece(piece.color, promo)]; reading
    [piece.color] when [piece] is [None] raises [AttributeError]. *)
Definition placed_piece (piece : option Piece) (promo : option PieceType)
    : M (option Piece) :=
  match promo with
  | None => ret piece
  | Some k =>
      match piece with
      | Some p => ret (Some (mkPiece (color p) k))
      | None => raise AttributeError
      end
  end.

(** ** Legality, move application, game state *)

(** [is_legal_move]: apply on the live grid, test, undo. *)
Definition is_legal_move (mv : Move) (col : Color) : M bool :=
  let '((r1, c1), (r2, c2), promo) := mv in
  let* piece := get_cell r1 c1 in
  let* captured := get_cell r2 c2 in
  let* np := placed_piece piece promo in
  set_cell r2 c2 np ;;;
  set_cell r1 c1 None ;;;
  let* king_in_check := gets (fun b => in_check (grid b) col) in
  set_cell r1 c1 piece ;;;
  set_cell r2 c2 captured ;;;
  ret (negb king_in_check).

(** [generate_legal_moves] *)
Definition generate_legal_moves (col : Color) : M (list Move) :=
  foldM (fun legal sq =>
    let* p := get_cell (fst sq) (snd sq) in
    match p with
    | Some pc =>
        if color_eqb (color pc) col then
          let* pm := gets (fun b => generate_pseudo_moves_from (grid b) sq pc) in
          foldM (fun legal mv =>
            let* ok := is_legal_move mv col in
            ret (if ok then legal ++ [mv] else legal)) pm legal
        else ret legal
    | None => ret legal
    end) squares [].

(** [update_game_state] *)
Definition update_game_state : M unit :=
  let* over := gets game_over in
  match over with
  | Some _ => ret tt
  | None =>
      let* col := gets turn in
      let* legal := generate_legal_moves col in
      if Nat.eqb (length legal) 0 then
        let* chk := gets (fun b => in_check (grid b) col) in
        if chk then modify (with_result (Some checkmate) (Some (other col)))
        else modify (with_result (Some stalemate) None)
      else ret tt
  end.

(** [make_move] *)
Definition make_move (mv : Move) : M unit :=
  let '((r1, c1), (r2, c2), promo) := mv in
  let* piece := get_cell r1 c1 in
  let* captured := get_cell r2 c2 in
  let* np := placed_piece piece promo in
  set_cell r2 c2 np ;;;
  set_cell r1 c1 None ;;;
  modify (fun b => with_turn (other (turn b)) b) ;;;
  let* t := gets turn in
  (if color_eqb t White
   then modify (fun b => with_fullmove (fullmove_number b + 1) b)
   else ret tt) ;;;
  update_game_state.

(** ** The starting position *)

Definition order : list PieceType :=
  [Rook; Knight; Bishop; Queen; King; Bishop; Knight; Rook].

(** [enumerate(order)] *)
Definition enumerate_order : list (Z * PieceType) :=
  combine range8 order.

(** [place_start_position] *)
Definition place_start_position : M unit :=
  foldM (fun _ ck =>
    set_cell 0 (fst ck) (Some (mkPiece Black (snd ck))) ;;;
    set_cell 1 (fst ck) (Some (mkPiece Black Pawn))) enumerate_order tt ;;;
  foldM (fun _ ck =>
    set_cell 7 (fst ck) (Some (mkPiece White (snd ck))) ;;;
    set_cell 6 (fst ck) (Some (mkPiece White Pawn))) enumerate_order tt.

(** The fields assigned by [__init__] before [place_start_position]. *)
Definition blank_board : Board :=
  mkBoard (repeat (repeat None 8) 8) White 0 1 None None.

(** [Board.__init__] *)
Definition Board_init : Result (unit * Board) :=
  place_start_position blank_board.

(** [Board()] *)
Definition new_board : Board :=
  match Board_init with
  | Ok (_, b) => b
  | Raise _ => blank_board
  end.

(** ** Notions used to state the properties *)

(** [in_bounds] and the grid read, on a square given as a pair. *)
Definition sq_in_bounds (sq : Square) : bool := in_bounds (fst sq) (snd sq).
Definition piece_at (g : Grid) (sq : Square) : option Piece :=
  cell g (fst sq) (snd sq).

(** The piece that a move puts on its destination: the moved piece, or a
    fresh piece of the promotion kind with the mover's colour. *)
Definition arriving (g : Grid) (mv : Move) : option Piece :=
  match mv_promo mv with
  | None => piece_at g (mv_from mv)
  | Some k =>
      match piece_at g (mv_from mv) with
      | Some p => Some (mkPiece (color p) k)
      | None => None
      end
  end.

(** [g'] is the position obtained from [g] by the move: the origin is
    cleared, the destination holds the arriving piece, every other square
    is as in [g]. *)
Definition applied (g : Grid) (mv : Move) (g' : Grid) : Prop :=
  wf_grid g' /\
  forall sq, sq_in_bounds sq = true ->
    piece_at g' sq =
      if sq_eqb sq (mv_from mv) then None
      else if sq_eqb sq (mv_to mv) then arriving g mv
      else piece_at g sq.

(** The grid after the two assignments that apply a move. *)
Definition apply_grid (g : Grid) (mv : Move) : Grid :=
  match grid_set g (fst (mv_to mv)) (snd (mv_to mv)) (arriving g mv) with
  | Ok g1 =>
      match grid_set g1 (fst (mv_from mv)) (snd (mv_from mv)) None with
      | Ok g2 => g2
      | Raise _ => g
      end
  | Raise _ => g
  end.

(** Some piece of colour [by_col] standing on the board has a
    pseudo-move that lands on [sq]. *)
Definition attacked (g : Grid) (sq : Square) (by_col : Color) : Prop :=
  exists s p mv,
    sq_in_bounds s = true /\ piece_at g s = Some p /\ color p = by_col /\
    In mv (generate_pseudo_moves_from g s p) /\ mv_to mv = sq.

(** [k] is the one square of the board holding a King of colour [col]. *)
Definition sole_king (g : Grid) (col : Color) (k : Square) : Prop :=
  sq_in_bounds k = true /\ is_king_of col (piece_at g k) = true /\
  forall sq, sq_in_bounds sq = true ->
    is_king_of col (piece_at g sq) = true -> sq = k.

(** Number of Kings of a colour on the grid. *)
Definition count_kings (g : Grid) (col : Color) : nat :=
  length (List.filter (fun sq => is_king_of col (piece_at g sq)) squares).

(** The moves that pass the legality test, as a pure function of the
    grid: what [generate_legal_moves] returns (lemma
    [generate_legal_moves_ok]). *)
Definition legal_moves_of (g : Grid) (col : Color) : list Move :=
  flat_map (fun sq =>
    match piece_at g sq with
    | Some pc =>
        if color_eqb (color pc) col then
          List.filter (fun mv => negb (in_check (apply_grid g mv) col))
                      (generate_pseudo_moves_from g sq pc)
        else []
    | None => []
    end) squares.

(** The kind of the piece a move takes from its origin, and the moves of
    a list made by pieces of a given kind. *)
Definition mover_kind (g : Grid) (mv : Move) : option PieceType :=
  match piece_at g (mv_from mv) with
  | Some p => Some (kind p)
  | None => None
  end.

Definition moves_of_kind (g : Grid) (k : PieceType) (l : list Move)
    : list Move :=
  List.filter (fun mv =>
    match mover_kind g mv with
    | Some k' => kind_eqb k' k
    | None => false
    end) l.

(** One ply of play as the interface drives it: ask for the legal moves
    of the side to move, pick one, apply it. *)
Definition legal_step (b b' : Board) : Prop :=
  exists l b1 mv,
    generate_legal_moves (turn b) b = Ok (l, b1) /\
    In mv l /\
    make_move mv b1 = Ok (tt, b').

(** The boards that play can reach from [Board()]. *)
Inductive reachable : Board -> Prop :=
| reach_init : reachable new_board
| reach_step b b' : reachable b -> legal_step b b' -> reachable b'.

(** ** Auxiliary notions of the proofs *)

(** What a pseudo-move may be: it leaves from the square asked for,
    lands on another square of the board that holds no piece of the
    mover's colour, and promotes, if at all, a Pawn to a Queen. *)
Definition sound_move (g : Grid) (sq : Square) (p : Piece) (mv : Move)
    : Prop :=
  mv_from mv = sq /\
  sq_in_bounds (mv_to mv) = true /\
  mv_to mv <> sq /\
  occupied_by g (fst (mv_to mv)) (snd (mv_to mv)) (color p) = false /\
  (mv_promo mv = None \/ (mv_promo mv = Some Queen /\ kind p = Pawn)).

(** An upper bound on the number of squares a ray can still visit from
    [(nr, nc)] in direction [(dr, dc)], measured along a coordinate that
    moves. *)
Definition ray_room (nr nc dr dc : Z) : Z :=
  if dr =? 1 then 8 - nr
  else if dr =? -1 then nr + 1
  else if dc =? 1 then 8 - nc
  else nc + 1.

(** A move the legality test can be run on. *)
Definition testable (g : Grid) (mv : Move) : Prop :=
  sq_in_bounds (mv_from mv) = true /\ sq_in_bounds (mv_to mv) = true /\
  piece_at g (mv_from mv) <> None.

(** Closed form of the board left by [update_game_state]. *)
Definition game_state_after (b : Board) : Board :=
  match game_over b with
  | Some _ => b
  | None =>
      if Nat.eqb (length (legal_moves_of (grid b) (turn b))) 0 then
        if in_check (grid b) (turn b)
        then with_result (Some checkmate) (Some (other (turn b))) b
        else with_result (Some stalemate) None b
      else b
  end.

(** Closed form of the board left by [make_move]. *)
Definition after_move (b : Board) (mv : Move) : Board :=
  let b1 := with_grid (apply_grid (grid b) mv) b in
  let b2 := with_turn (other (turn b1)) b1 in
  let b3 := if color_eqb (turn b2) White
            then with_fullmove (fullmove_number b2 + 1) b2 else b2 in
  game_state_after b3.

(** [m] relates the board it starts from to the board it leaves by [R],
    whenever it returns. *)
Definition keeps {A} (R : Board -> Board -> Prop) (m : M A) : Prop :=
  forall b a b', m b = Ok (a, b') -> R b b'.

(** Side to move and move counters are the same. *)
Definition same_clock (b b' : Board) : Prop :=
  turn b' = turn b /\ halfmove_clock b' = halfmove_clock b /\
  fullmove_number b' = fullmove_number b.

(** The twenty opening moves of White, in generation order: a single and
    a double step for each pawn, then the moves of the two knights. *)
Definition start_moves : list Move :=
  flat_map (fun c => [((6, c), (5, c), None); ((6, c), (4, c), None)]) range8
  ++ [((7, 1), (5, 0), None); ((7, 1), (5, 2), None);
      ((7, 6), (5, 5), None); ((7, 6), (5, 7), None)].

(** The invariant of play: an 8x8 grid with exactly one King of each
    colour, on which the side that has just moved is not in check. *)
Definition play_inv (b : Board) : Prop :=
  wf_grid (grid b) /\
  (exists k, sole_king (grid b) White k) /\
  (exists k, sole_king (grid b) Black k) /\
  in_check (grid b) (other (turn b)) = false.

(** [winner] is set exactly when the game ended in checkmate. *)
Definition winner_iff_checkmate (b : Board) : Prop :=
  winner b <> None <-> game_over b = Some checkmate.

(** A board with a White pawn on e7 and nothing on e8. *)
Definition promotion_board : Board :=
  with_grid
    (<[1%nat := [None; None; None; None; Some (mkPiece White Pawn);
                 None; None; None]]>
       (<[0%nat := [None; None; None; None; None; None; None;
                    Some (mkPiece Black King)]]>
          (<[6%nat := repeat None 8]> (grid new_board))))
    new_board.

(** Playing a sequence of moves from a board. *)
Definition play (mvs : list Move) : M unit :=
  foldM (fun _ mv => make_move mv) mvs tt.

(** The board after playing [mvs] from [Board()]. *)
Definition board_after (mvs : list Move) : Board :=
  match play mvs new_board with
  | Ok (_, b) => b
  | Raise _ => new_board
  end.

(** Fool's mate: f2f3, e7e5, g2g4, Qd8h4. *)
Definition fools_mate_moves : list Move :=
  [((6, 5), (5, 5), None); ((1, 4), (3, 4), None);
   ((6, 6), (4, 6), None); ((0, 3), (4, 7), None)].

(** White King a1, Black King a3, Black Queen b3, White to move. *)
Definition stalemate_board : Board :=
  with_grid
    (<[7%nat := [Some (mkPiece White King); None; None; None;
                 None; None; None; None]]>
       (<[5%nat := [Some (mkPiece Black King); Some (mkPiece Black Queen);
                    None; None; None; None; None; None]]>
          (grid blank_board)))
    blank_board.

(** ** Notions used to state further properties *)

(** The squares strictly between [(r, c)] and the [k]-th square along the
    direction [(dr, dc)] are all empty. *)
Definition clear_path (g : Grid) (r c dr dc k : Z) : Prop :=
  forall j, 1 <= j < k -> empty g (r + j * dr) (c + j * dc) = true.

(** The direction in which pawns of a colour advance, and their starting
    row: [dir] and [start_row] of [generate_pseudo_moves_from]. *)
Definition pawn_dir (col : Color) : Z :=
  if color_eqb col White then -1 else 1.
Definition pawn_start_row (col : Color) : Z :=
  if color_eqb col White then 6 else 1.

(** [Board.clone]: a new board with a fresh [Piece] for every piece. *)
Definition clone (b : Board) : Board :=
  mkBoard
    (map (fun row =>
            map (fun p =>
                   match p with
                   | None => None
                   | Some p => Some (mkPiece (color p) (kind p))
                   end) row) (grid b))
    (turn b) (halfmove_clock b) (fullmove_number b) (game_over b) (winner b).

(** Position of a square in the scan [for r in range(8): for c in
    range(8)]. *)
Definition scan_index (sq : Square) : Z := 8 * fst sq + snd sq.

(** [game_over] and [winner] are the same. *)
Definition same_result (b b' : Board) : Prop :=
  game_over b' = game_over b /\ winner b' = winner b.

(** A Python index in [-8, -1] counted from the end of a list of 8. *)
Definition wrap (i : Z) : Z :=
  if (-8 <=? i) && (i <? 0) then i + 8 else i.

Definition wrap_move (mv : Move) : Move :=
  ((wrap (fst (mv_from mv)), wrap (snd (mv_from mv))),
   (wrap (fst (mv_to mv)), wrap (snd (mv_to mv))),
   mv_promo mv).

(** A valid index of a list of 8. *)
Definition index_ok (i : Z) : bool := (-8 <=? i) && (i <? 8).

(** What the position says about the end of the game: no legal move for
    the side to move and check, no legal move and no check, or play goes
    on. *)
Definition verdict (g : Grid) (col : Color) : option Outcome :=
  match legal_moves_of g col with
  | [] => Some (if in_check g col then checkmate else stalemate)
  | _ :: _ => None
  end.

(** [game_over] and [winner] say what the position says. *)
Definition result_is_accurate (b : Board) : Prop :=
  game_over b = verdict (grid b) (turn b) /\
  winner b = match verdict (grid b) (turn b) with
             | Some checkmate => Some (other (turn b))
             | _ => None
             end.

(** Side to move, counters and result are the same. *)
Definition same_status (b b' : Board) : Prop :=
  same_clock b b' /\ same_result b b'.

(** 1 when Black is to move, 0 when White is. *)
Definition black_to_move (b : Board) : Z :=
  if color_eqb (turn b) Black then 1 else 0.

(** Number of pieces of a colour on the grid. *)
Definition count_pieces (g : Grid) (col : Color) : nat :=
  length (List.filter (fun sq => occupied_by g (fst sq) (snd sq) col) squares).

(** Fool's mate short of its last move. *)
Definition before_mate : list Move :=
  [((6, 5), (5, 5), None); ((1, 4), (3, 4), None); ((6, 6), (4, 6), None)].

(** The mating move, Qd8h4. *)
Definition mating_move : Move := ((0, 3), (4, 7), None).

(** ** The application: [class ChessGame]

    The window, clock and fonts are not modelled; the fields below are
    those the event handlers read and write.  [pygame.time.get_ticks()]
    is an input of the handler that calls it ([now]), and the index drawn
    by [random.choice] is an input of [ai_move] ([pick]). *)

Definition TILE_SIZE : Z := 80.
Definition BOARD_SIZE : Z := 8.
Definition BOARD_PIXELS : Z := TILE_SIZE * BOARD_SIZE.

Record ChessGame := mkGame {
  board : Board;
  selected : option Square;
  legal_moves_from_selected : list Square;
  running : bool;
  ai_enabled_for_black : bool;
  ai_delay_ms : Z;
  pending_ai_time : option Z
}.

Definition with_board (b : Board) (gm : ChessGame) : ChessGame :=
  mkGame b (selected gm) (legal_moves_from_selected gm) (running gm)
         (ai_enabled_for_black gm) (ai_delay_ms gm) (pending_ai_time gm).
Definition with_selection (s : option Square) (l : list Square)
    (gm : ChessGame) : ChessGame :=
  mkGame (board gm) s l (running gm)
         (ai_enabled_for_black gm) (ai_delay_ms gm) (pending_ai_time gm).
Definition with_selected (s : option Square) (gm : ChessGame) : ChessGame :=
  with_selection s (legal_moves_from_selected gm) gm.
Definition with_hints (l : list Square) (gm : ChessGame) : ChessGame :=
  with_selection (selected gm) l gm.
Definition with_pending (t : option Z) (gm : ChessGame) : ChessGame :=
  mkGame (board gm) (selected gm) (legal_moves_from_selected gm) (running gm)
         (ai_enabled_for_black gm) (ai_delay_ms gm) t.
Definition with_running (r : bool) (gm : ChessGame) : ChessGame :=
  mkGame (board gm) (selected gm) (legal_moves_from_selected gm) r
         (ai_enabled_for_black gm) (ai_delay_ms gm) (pending_ai_time gm).

(** The state-and-exception monad of the handlers, over [ChessGame]. *)
Definition GM (A : Type) : Type := ChessGame -> Result (A * ChessGame).

Definition gret {A} (a : A) : GM A := fun gm => Ok (a, gm).

Definition gbind {A B} (m : GM A) (k : A -> GM B) : GM B :=
  fun gm =>
    match m gm with
    | Ok (a, gm') => k a gm'
    | Raise e => Raise e
    end.

Notation "'let+' x ':=' m 'in' k" := (gbind m (fun x => k))
  (at level 10, x name, m at level 100, k at level 200).
Notation "m ';;+' k" := (gbind m (fun _ => k))
  (at level 100, k at level 200, right associativity).

Definition ggets {A} (f : ChessGame -> A) : GM A := fun gm => Ok (f gm, gm).
Definition gmodify (f : ChessGame -> ChessGame) : GM unit :=
  fun gm => Ok (tt, f gm).

(** A method call on [self.board]. *)
Definition on_board {A} (m : M A) : GM A :=
  fun gm =>
    match m (board gm) with
    | Ok (a, b') => Ok (a, with_board b' gm)
    | Raise e => Raise e
    end.

(** [piece and piece.color == self.board.turn] *)
Definition is_own (piece : option Piece) (t : Color) : bool :=
  match piece with
  | Some p => color_eqb (color p) t
  | None => false
  end.

(** The two statements that select a square: [self.selected = (r, c)] and
    the list comprehension
    [[to for (_f, to, _p) in ...generate_legal_moves(turn) if _f == self.selected]]. *)
Definition select_square (sq : Square) : GM unit :=
  gmodify (with_selected (Some sq)) ;;+
  let+ t := ggets (fun gm => turn (board gm)) in
  let+ legal := on_board (generate_legal_moves t) in
  let+ sel := ggets selected in
  gmodify (with_hints
    (map mv_to
       (List.filter (fun mv =>
          match sel with
          | Some s => sq_eqb (mv_from mv) s
          | None => false
          end) legal))).

(** The square under a pixel, as [handle_click] computes it before it
    looks at the board: [None] where it returns at once. *)
Definition click_square (pos : Z * Z) : option Square :=
  let '(x, y) := pos in
  if y >=? BOARD_PIXELS then None
  else
    let c := x / TILE_SIZE in
    let r := y / TILE_SIZE in
    if negb (in_bounds r c) then None else Some (r, c).

(** [handle_click] *)
Definition handle_click (pos : Z * Z) (now : Z) : GM unit :=
  match click_square pos with
  | None => gret tt
  | Some (r, c) =>
      let+ piece := on_board (get_cell r c) in
      let+ sel := ggets selected in
      let+ t := ggets (fun gm => turn (board gm)) in
      match sel with
      | None =>
          if is_own piece t then select_square (r, c) else gret tt
      | Some s =>
          if is_own piece t then select_square (r, c)
          else
            let+ legal := on_board (generate_legal_moves t) in
            match List.filter (fun mv => sq_eqb (mv_from mv) s &&
                                         sq_eqb (mv_to mv) (r, c)) legal with
            | mv :: _ =>
                on_board (make_move mv) ;;+
                gmodify (with_selection None []) ;;+
                let+ ai := ggets ai_enabled_for_black in
                let+ over := ggets (fun gm => game_over (board gm)) in
                let+ t' := ggets (fun gm => turn (board gm)) in
                if ai && match over with None => true | Some _ => false end
                      && color_eqb t' Black
                then let+ d := ggets ai_delay_ms in
                     gmodify (with_pending (Some (now + d)))
                else gret tt
            | [] => gmodify (with_selection None [])
            end
      end
  end.

(** [ai_move]; [pick] is the index drawn by [random.choice(legal)], always
    below [len(legal)]. *)
Definition ai_move (pick : nat) : GM unit :=
  let+ legal := on_board (generate_legal_moves Black) in
  match legal with
  | [] => on_board update_game_state
  | _ :: _ =>
      match nth_error legal pick with
      | Some mv => on_board (make_move mv)
      | None => fun _ => Raise IndexError
      end
  end.

(** [update] *)
Definition update (now : Z) (pick : nat) : GM unit :=
  let+ ai := ggets ai_enabled_for_black in
  let+ over := ggets (fun gm => game_over (board gm)) in
  let+ t := ggets (fun gm => turn (board gm)) in
  if ai && match over with None => true | Some _ => false end
        && color_eqb t Black
  then
    let+ pending := ggets pending_ai_time in
    match pending with
    | None =>
        let+ d := ggets ai_delay_ms in
        gmodify (with_pending (Some (now + d)))
    | Some at_time =>
        if now >=? at_time
        then ai_move pick ;;+ gmodify (with_pending None)
        else gret tt
    end
  else gret tt.

(** [reset_game] *)
Definition reset_game : GM unit :=
  gmodify (fun gm =>
    with_pending None (with_selection None [] (with_board new_board gm))).

(** The events [handle_events] distinguishes. *)
Inductive Event :=
| QUIT
| LEFT_CLICK (pos : Z * Z)
| OTHER.

(** The body of the loop of [handle_events], for one event. *)
Definition handle_event (ev : Event) (now : Z) : GM unit :=
  match ev with
  | QUIT => gmodify (with_running false)
  | LEFT_CLICK pos =>
      let+ over := ggets (fun gm => game_over (board gm)) in
      match over with
      | Some _ => reset_game
      | None =>
          let+ t := ggets (fun gm => turn (board gm)) in
          if color_eqb t White then handle_click pos now else gret tt
      end
  | OTHER => gret tt
  end.

(** The fields set by [ChessGame.__init__]. *)
Definition ChessGame_init : ChessGame :=
  mkGame new_board None [] true true 250 None.

(** The pixels of the tile that [draw_board] draws for a square:
    [pygame.Rect(c * TILE_SIZE, r * TILE_SIZE, TILE_SIZE, TILE_SIZE)]. *)
Definition in_tile (sq : Square) (pos : Z * Z) : Prop :=
  snd sq * TILE_SIZE <= fst pos < snd sq * TILE_SIZE + TILE_SIZE /\
  fst sq * TILE_SIZE <= snd pos < fst sq * TILE_SIZE + TILE_SIZE.

(** The states of the application: what [__init__] builds, and what the
    handlers of the main loop make of it. *)
Inductive ui_reachable : ChessGame -> Prop :=
| ui_init : ui_reachable ChessGame_init
| ui_event ev now gm gm' :
    ui_reachable gm -> handle_event ev now gm = Ok (tt, gm') ->
    ui_reachable gm'
| ui_update now pick gm gm' :
    ui_reachable gm -> update now pick gm = Ok (tt, gm') ->
    ui_reachable gm'.

(** The legal destinations of the piece on [s], for the side to move. *)
Definition destinations_from (b : Board) (s : Square) : list Square :=
  map mv_to
      (List.filter (fun mv => sq_eqb (mv_from mv) s)
                   (legal_moves_of (grid b) (turn b))).

(** What the selection and the highlighted squares always are. *)
Definition selection_ok (gm : ChessGame) : Prop :=
  match selected gm with
  | None => legal_moves_from_selected gm = []
  | Some s =>
      sq_in_bounds s = true /\
      is_own (piece_at (grid (board gm)) s) (turn (board gm)) = true /\
      turn (board gm) = White /\ game_over (board gm) = None /\
      legal_moves_from_selected gm = destinations_from (board gm) s
  end.

(** The invariant of the application. *)
Definition ui_inv (gm : ChessGame) : Prop :=
  reachable (board gm) /\ selection_ok gm.

(** The test that lets the opponent move:
    [ai_enabled_for_black and not game_over and turn == 'b']. *)
Definition ai_to_move (gm : ChessGame) : bool :=
  ai_enabled_for_black gm &&
  match game_over (board gm) with None => true | Some _ => false end &&
  color_eqb (turn (board gm)) Black.

(** What the main loop feeds the handlers: an event with the clock value
    it is handled at, or a call of [update] with the clock value and the
    random draw. *)
Inductive Input :=
| Ev (ev : Event) (now : Z)
| Tick (now : Z) (pick : nat).

Definition feed (i : Input) : GM unit :=
  match i with
  | Ev ev now => handle_event ev now
  | Tick now pick => update now pick
  end.

Fixpoint feed_all (l : list Input) : GM unit :=
  match l with
  | [] => gret tt
  | i :: l' => feed i ;;+ feed_all l'
  end.

(** The state of the application after the inputs, from [__init__]. *)
Definition game_after (l : list Input) : ChessGame :=
  match feed_all l ChessGame_init with
  | Ok (_, gm) => gm
  | Raise _ => ChessGame_init
  end.

(** A click on e2. *)
Definition click_e2 : Input := Ev (LEFT_CLICK (340, 500)) 0.
(** A click on e4. *)
Definition click_e4 : Input := Ev (LEFT_CLICK (340, 340)) 1000.

(** * Properties *)

(** ** Equality tests and bounds *)

Lemma color_eqb_eq a b : color_eqb a b = true <-> a = b.
Proof. destruct a, b; simpl; split; congruence. Qed.

Lemma color_eqb_refl a : color_eqb a a = true.
Proof. now destruct a. Qed.

Lemma kind_eqb_eq a b : kind_eqb a b = true <-> a = b.
Proof. destruct a, b; simpl; split; congruence. Qed.

Lemma other_involutive c : other (other c) = c.
Proof. now destruct c. Qed.

Lemma sq_eqb_eq (a b : Square) : sq_eqb a b = true <-> a = b.
Proof.
  destruct a as [a1 a2], b as [b1 b2]. unfold sq_eqb. simpl.
  rewrite andb_true_iff, !Z.eqb_eq. split.
  - intros [-> ->]. reflexivity.
  - intros H. injection H as -> ->. split; reflexivity.
Qed.

Lemma sq_eqb_refl (a : Square) : sq_eqb a a = true.
Proof. now apply sq_eqb_eq. Qed.

Lemma sq_eqb_neq (a b : Square) : sq_eqb a b = false <-> a <> b.
Proof.
  rewrite <- sq_eqb_eq. destruct (sq_eqb a b); split; congruence.
Qed.

Lemma in_bounds_spec r c :
  in_bounds r c = true <-> (0 <= r < 8 /\ 0 <= c < 8).
Proof.
  unfold in_bounds.
  rewrite !andb_true_iff, !Z.leb_le, !Z.ltb_lt. lia.
Qed.

Lemma in_squares (sq : Square) : In sq squares <-> sq_in_bounds sq = true.
Proof.
  destruct sq as [r c]. unfold sq_in_bounds. simpl fst. simpl snd.
  rewrite in_bounds_spec. unfold squares. rewrite in_flat_map. split.
  - intros (r' & Hr & Hc). apply in_map_iff in Hc as (c' & Heq & Hc).
    injection Heq as -> ->. unfold range8 in *. simpl in Hr, Hc. lia.
  - intros [Hr Hc]. exists r. split.
    + unfold range8. simpl.
      assert (r = 0 \/ r = 1 \/ r = 2 \/ r = 3 \/ r = 4 \/ r = 5 \/
              r = 6 \/ r = 7) by lia.
      intuition.
    + apply in_map_iff. exists c. split; [reflexivity |].
      unfold range8. simpl.
      assert (c = 0 \/ c = 1 \/ c = 2 \/ c = 3 \/ c = 4 \/ c = 5 \/
              c = 6 \/ c = 7) by lia.
      intuition.
Qed.

Lemma NoDup_squares : NoDup squares.
Proof.
  apply (bool_decide_unpack _). vm_compute. exact I.
Qed.

(** ** Reading and writing the grid *)

Lemma py_norm_in_range n i :
  0 <= i < Z.of_nat n -> py_norm n i = Some (Z.to_nat i).
Proof.
  intros H. unfold py_norm.
  destruct (Z.ltb_spec i 0); [lia |].
  destruct (Z.leb_spec 0 i); [| lia].
  destruct (Z.ltb_spec i (Z.of_nat n)); [| lia]. reflexivity.
Qed.

Lemma wf_grid_row g i row :
  wf_grid g -> g !! i = Some row -> length row = 8%nat.
Proof.
  intros [_ Hrows] Hi. rewrite Forall_forall in Hrows.
  apply Hrows. eapply list_elem_of_lookup_2. eassumption.
Qed.

(** On an 8x8 grid, a read at an in-bounds square does not raise. *)
Lemma grid_get_in_bounds g r c :
  wf_grid g -> in_bounds r c = true ->
  exists row,
    g !! Z.to_nat r = Some row /\ length row = 8%nat /\
    row !! Z.to_nat c = Some (cell g r c) /\
    grid_get g r c = Ok (cell g r c).
Proof.
  intros Hwf Hb. apply in_bounds_spec in Hb as [Hr Hc].
  pose proof Hwf as [Hlen _].
  destruct (lookup_lt_is_Some_2 g (Z.to_nat r)) as [row Hrow]; [lia |].
  pose proof (wf_grid_row _ _ _ Hwf Hrow) as Hlr.
  destruct (lookup_lt_is_Some_2 row (Z.to_nat c)) as [p Hp]; [lia |].
  assert (Hget : grid_get g r c = Ok p).
  { unfold grid_get, py_get.
    rewrite py_norm_in_range by lia. rewrite Hrow.
    rewrite py_norm_in_range by lia. rewrite Hp. reflexivity. }
  exists row. unfold cell. rewrite Hget. auto.
Qed.

Lemma wf_gridb_spec g : wf_gridb g = true <-> wf_grid g.
Proof.
  unfold wf_gridb, wf_grid.
  rewrite andb_true_iff, Nat.eqb_eq, forallb_forall, List.Forall_forall.
  split; intros [H1 H2]; split; auto; intros x Hx;
    apply Nat.eqb_eq; now apply H2.
Qed.

(** Two 8x8 grids with the same contents on every square are equal. *)
Lemma grid_ext g1 g2 :
  wf_grid g1 -> wf_grid g2 ->
  (forall sq, sq_in_bounds sq = true -> piece_at g1 sq = piece_at g2 sq) ->
  g1 = g2.
Proof.
  intros Hw1 Hw2 Hext.
  apply list_eq_same_length with (n := 8%nat);
    [exact (proj1 Hw2) | exact (proj1 Hw1) |].
  intros i row1 row2 Hi H1 H2.
  apply list_eq_same_length with (n := 8%nat);
    [exact (wf_grid_row _ _ _ Hw2 H2) | exact (wf_grid_row _ _ _ Hw1 H1) |].
  intros j p1 p2 Hj Hp1 Hp2.
  assert (Hb : in_bounds (Z.of_nat i) (Z.of_nat j) = true)
    by (apply in_bounds_spec; lia).
  specialize (Hext (Z.of_nat i, Z.of_nat j) Hb).
  unfold piece_at in Hext. simpl in Hext.
  destruct (grid_get_in_bounds g1 _ _ Hw1 Hb) as (r1 & Hr1 & _ & Hc1 & _).
  destruct (grid_get_in_bounds g2 _ _ Hw2 Hb) as (r2 & Hr2 & _ & Hc2 & _).
  rewrite Nat2Z.id in *.
  congruence.
Qed.

(** On an 8x8 grid, a write at an in-bounds square does not raise, keeps
    the shape, and changes that square only. *)
Lemma grid_set_in_bounds g r c v :
  wf_grid g -> in_bounds r c = true ->
  exists g',
    grid_set g r c v = Ok g' /\ wf_grid g' /\
    forall sq, sq_in_bounds sq = true ->
      piece_at g' sq = if sq_eqb sq (r, c) then v else piece_at g sq.
Proof.
  intros Hwf Hb.
  destruct (grid_get_in_bounds g r c Hwf Hb) as (row & Hrow & Hlr & Hp & _).
  apply in_bounds_spec in Hb as [Hr Hc].
  pose proof Hwf as [Hlen Hrows].
  exists (<[Z.to_nat r := <[Z.to_nat c := v]> row]> g).
  assert (Hwf' : wf_grid (<[Z.to_nat r := <[Z.to_nat c := v]> row]> g)).
  { split; [now rewrite length_insert |].
    apply Forall_insert; [assumption | now rewrite length_insert]. }
  split; [| split; [exact Hwf' |]].
  - unfold grid_set. rewrite py_norm_in_range by lia. rewrite Hrow.
    rewrite py_norm_in_range by lia. reflexivity.
  - intros [r' c'] Hb'. unfold sq_in_bounds in Hb'. simpl in Hb'.
    unfold piece_at. simpl fst. simpl snd.
    destruct (grid_get_in_bounds _ r' c' Hwf' Hb') as (row' & Hrow' & _ & Hp' & _).
    destruct (grid_get_in_bounds _ r' c' Hwf Hb') as (row0 & Hrow0 & _ & Hp0 & _).
    apply in_bounds_spec in Hb' as [Hr' Hc'].
    destruct (sq_eqb (r', c') (r, c)) eqn:E.
    + apply sq_eqb_eq in E. injection E as -> ->.
      rewrite list_lookup_insert_eq in Hrow' by lia.
      injection Hrow' as <-.
      rewrite list_lookup_insert_eq in Hp' by lia. congruence.
    + apply sq_eqb_neq in E.
      destruct (Z.eq_dec r' r) as [-> | Hne].
      * rewrite list_lookup_insert_eq in Hrow' by lia.
        injection Hrow' as <-.
        rewrite list_lookup_insert_ne in Hp' by (intros Heq; apply E; f_equal; lia).
        congruence.
      * rewrite list_lookup_insert_ne in Hrow' by lia. congruence.
Qed.

(** ** Pseudo-moves *)

Lemma empty_true g r c : empty g r c = true <-> cell g r c = None.
Proof. unfold empty. destruct (cell g r c); split; congruence. Qed.

Lemma empty_not_occupied g r c col :
  empty g r c = true -> occupied_by g r c col = false.
Proof. unfold empty, occupied_by. destruct (cell g r c); congruence. Qed.

(** Case analysis on membership in a list built from conditionals. *)
Ltac in_cases H :=
  repeat (simpl in H;
    match type of H with
    | In _ (_ ++ _) => apply in_app_or in H; destruct H as [H | H]
    | In _ (if ?b then _ else _) =>
        let E := fresh "E" in destruct b eqn:E
    | _ \/ _ => destruct H as [H | H]
    | False => contradiction
    end).

Ltac bools :=
  repeat match goal with
  | H : _ && _ = true |- _ => apply andb_true_iff in H; destruct H
  | H : _ || _ = false |- _ => apply orb_false_iff in H; destruct H
  | H : negb _ = true |- _ => apply negb_true_iff in H
  | H : negb _ = false |- _ => apply negb_false_iff in H
  | H : in_bounds _ _ = true |- _ => apply in_bounds_spec in H
  | H : (_ =? _) = true |- _ => apply Z.eqb_eq in H
  | H : (_ =? _) = false |- _ => apply Z.eqb_neq in H
  end.


Lemma promo_of_cases nr :
  promo_of nr = None \/ promo_of nr = Some Queen.
Proof. unfold promo_of. destruct (_ || _); auto. Qed.

Ltac sound_finish :=
  subst; unfold sound_move, mv_from, mv_to, mv_promo, sq_in_bounds;
  simpl fst; simpl snd; bools;
  repeat split;
  [ apply in_bounds_spec; lia
  | intros Heq; injection Heq; lia
  | solve [ assumption | apply empty_not_occupied; assumption ]
  | ].

Lemma pawn_moves_sound g r c p mv :
  kind p = Pawn ->
  In mv (pawn_moves g r c (color p)) -> sound_move g (r, c) p mv.
Proof.
  intros Hk H. unfold pawn_moves in H.
  destruct (color_eqb (color p) White); in_cases H; sound_finish;
    try (destruct (promo_of_cases (r + -1)) as [-> | ->]; auto);
    try (destruct (promo_of_cases (r + 1)) as [-> | ->]; auto);
    auto.
Qed.

Lemma knight_moves_sound g r c p mv :
  In mv (knight_moves g r c (color p)) -> sound_move g (r, c) p mv.
Proof.
  intros H. unfold knight_moves, knight_offsets in H.
  in_cases H; sound_finish; auto.
Qed.

Lemma king_moves_sound g r c p mv :
  In mv (king_moves g r c (color p)) -> sound_move g (r, c) p mv.
Proof.
  intros H. unfold king_moves in H.
  in_cases H; sound_finish; auto.
Qed.

(** A ray only visits squares [k] steps away from the origin, [k >= 1]. *)
Lemma ray_sound g col r c dr dc mv :
  forall fuel k, 1 <= k ->
  In mv (ray fuel g col r c (r + k * dr) (c + k * dc) dr dc) ->
  exists k', k <= k' /\
    mv = ((r, c), (r + k' * dr, c + k' * dc), None) /\
    in_bounds (r + k' * dr) (c + k' * dc) = true /\
    occupied_by g (r + k' * dr) (c + k' * dc) col = false.
Proof.
  induction fuel as [| fuel IH]; intros k Hk H; simpl in H; [contradiction |].
  destruct (in_bounds _ _) eqn:Hb; [| contradiction].
  destruct (occupied_by _ _ _ _) eqn:Ho; [contradiction |].
  destruct H as [<- | H].
  - exists k. repeat split; auto; lia.
  - destruct (negb _); [contradiction |].
    replace (r + k * dr + dr) with (r + (k + 1) * dr) in H by lia.
    replace (c + k * dc + dc) with (c + (k + 1) * dc) in H by lia.
    apply IH in H as (k' & Hk' & H); [| lia].
    exists k'. split; [lia | exact H].
Qed.

Lemma slider_moves_sound g r c p mv :
  kind p <> Pawn ->
  In mv (slider_moves g r c p) -> sound_move g (r, c) p mv.
Proof.
  intros Hk H. unfold slider_moves in H. apply in_flat_map in H as (d & Hd & H).
  replace (r + fst d) with (r + 1 * fst d) in H by lia.
  replace (c + snd d) with (c + 1 * snd d) in H by lia.
  apply ray_sound in H as (k & Hk1 & -> & Hb & Ho); [| lia].
  unfold sound_move, mv_from, mv_to, mv_promo, sq_in_bounds. simpl fst. simpl snd.
  repeat split; auto.
  intros Heq. injection Heq as H1 H2.
  assert (Hnz : fst d <> 0 \/ snd d <> 0).
  { unfold directions, diagonals, orthogonals in Hd.
    destruct (kind p); simpl in Hd; intuition (subst; simpl; lia). }
  destruct Hnz; nia.
Qed.

Lemma pseudo_moves_sound g sq p mv :
  In mv (generate_pseudo_moves_from g sq p) -> sound_move g sq p mv.
Proof.
  destruct sq as [r c]. unfold generate_pseudo_moves_from.
  destruct (kind p) eqn:Hk.
  - apply king_moves_sound.
  - apply slider_moves_sound; congruence.
  - apply slider_moves_sound; congruence.
  - apply slider_moves_sound; congruence.
  - apply knight_moves_sound.
  - apply pawn_moves_sound; assumption.
Qed.


(** Once a ray has left the board it stays out: [fuel] beyond the
    distance to the edge changes nothing. *)
Lemma ray_fuel_enough g col r c dr dc :
  In (dr, dc) (diagonals ++ orthogonals) ->
  forall f1 f2 nr nc,
    ray_room nr nc dr dc <= Z.of_nat f1 ->
    ray_room nr nc dr dc <= Z.of_nat f2 ->
    ray f1 g col r c nr nc dr dc = ray f2 g col r c nr nc dr dc.
Proof.
  intros Hd.
  induction f1 as [| f1 IH]; intros f2 nr nc H1 H2.
  - destruct f2 as [| f2]; [reflexivity |]. simpl.
    destruct (in_bounds nr nc) eqn:Hb; [| reflexivity].
    exfalso. apply in_bounds_spec in Hb. unfold ray_room in H1.
    simpl in Hd. intuition (try congruence);
      match goal with H : (_, _) = (_, _) |- _ => injection H as <- <- end;
      simpl in H1; lia.
  - destruct f2 as [| f2]; simpl.
    + destruct (in_bounds nr nc) eqn:Hb; [| reflexivity].
      exfalso. apply in_bounds_spec in Hb. unfold ray_room in H2.
      simpl in Hd. intuition (try congruence);
        match goal with H : (_, _) = (_, _) |- _ => injection H as <- <- end;
        simpl in H2; lia.
    + destruct (in_bounds nr nc) eqn:Hb; [| reflexivity].
      destruct (occupied_by _ _ _ _); [reflexivity |].
      f_equal. destruct (negb _); [reflexivity |].
      apply IH; unfold ray_room in *;
        simpl in Hd; intuition (try congruence);
        match goal with H : (_, _) = (_, _) |- _ => injection H as <- <- end;
        simpl in *; lia.
Qed.

(** Fuel 8, the value used by [slider_moves], is as good as any larger
    amount: the [while] loop of a ray has ended by then. *)
Lemma ray_fuel g col r c nr nc dr dc extra :
  In (dr, dc) (diagonals ++ orthogonals) ->
  ray (8 + extra) g col r c nr nc dr dc = ray 8 g col r c nr nc dr dc.
Proof.
  intros Hd.
  destruct (in_bounds nr nc) eqn:Hb.
  - apply in_bounds_spec in Hb.
    apply ray_fuel_enough; [assumption | |];
      unfold ray_room; simpl in Hd; intuition (try congruence);
      match goal with H : (_, _) = (_, _) |- _ => injection H as <- <- end;
      simpl; lia.
  - replace (8 + extra)%nat with (S (7 + extra)) by lia.
    simpl. rewrite Hb. reflexivity.
Qed.

(** ** Applying a move to the grid *)

Lemma with_grid_id b : with_grid (grid b) b = b.
Proof. now destruct b. Qed.

Lemma with_grid_twice g1 g2 b : with_grid g2 (with_grid g1 b) = with_grid g2 b.
Proof. reflexivity. Qed.

Lemma get_cell_ok b r c :
  wf_grid (grid b) -> in_bounds r c = true ->
  get_cell r c b = Ok (cell (grid b) r c, b).
Proof.
  intros Hwf Hb. unfold get_cell.
  destruct (grid_get_in_bounds _ _ _ Hwf Hb) as (_ & _ & _ & _ & ->).
  reflexivity.
Qed.

Lemma placed_piece_ok g mv b :
  mv_promo mv = None \/ piece_at g (mv_from mv) <> None ->
  placed_piece (piece_at g (mv_from mv)) (mv_promo mv) b
  = Ok (arriving g mv, b).
Proof.
  intros H. unfold placed_piece, arriving.
  destruct (mv_promo mv); [| reflexivity].
  destruct (piece_at g (mv_from mv)); [reflexivity |].
  destruct H; congruence.
Qed.

(** The two assignments succeed on an 8x8 grid and produce the position
    described by [applied]. *)
Lemma apply_grid_steps g mv :
  wf_grid g ->
  sq_in_bounds (mv_from mv) = true -> sq_in_bounds (mv_to mv) = true ->
  exists g1,
    grid_set g (fst (mv_to mv)) (snd (mv_to mv)) (arriving g mv) = Ok g1 /\
    wf_grid g1 /\
    grid_set g1 (fst (mv_from mv)) (snd (mv_from mv)) None
    = Ok (apply_grid g mv) /\
    applied g mv (apply_grid g mv).
Proof.
  intros Hwf Hf Ht.
  destruct (grid_set_in_bounds g _ _ (arriving g mv) Hwf Ht)
    as (g1 & Hs1 & Hwf1 & Hc1).
  destruct (grid_set_in_bounds g1 _ _ None Hwf1 Hf)
    as (g2 & Hs2 & Hwf2 & Hc2).
  exists g1. unfold apply_grid. rewrite Hs1, Hs2.
  split; [reflexivity |]. split; [assumption |]. split; [reflexivity |].
  split; [assumption |].
  intros sq Hsq. rewrite (Hc2 sq Hsq), (Hc1 sq Hsq).
  now rewrite <- !surjective_pairing.
Qed.

Lemma apply_grid_applied g mv :
  wf_grid g ->
  sq_in_bounds (mv_from mv) = true -> sq_in_bounds (mv_to mv) = true ->
  applied g mv (apply_grid g mv).
Proof.
  intros Hwf Hf Ht.
  destruct (apply_grid_steps g mv Hwf Hf Ht) as (_ & _ & _ & _ & H). exact H.
Qed.

(** [applied] determines the resulting grid. *)
Lemma applied_unique g mv g' :
  wf_grid g ->
  sq_in_bounds (mv_from mv) = true -> sq_in_bounds (mv_to mv) = true ->
  applied g mv g' -> g' = apply_grid g mv.
Proof.
  intros Hwf Hf Ht [Hwf' Hc'].
  destruct (apply_grid_applied g mv Hwf Hf Ht) as [Hwf2 Hc2].
  apply grid_ext; auto.
  intros sq Hsq. now rewrite Hc', Hc2.
Qed.

(** Undoing the two assignments restores the grid. *)
Lemma undo_restores g mv g3 g4 :
  wf_grid g ->
  sq_in_bounds (mv_from mv) = true -> sq_in_bounds (mv_to mv) = true ->
  grid_set (apply_grid g mv) (fst (mv_from mv)) (snd (mv_from mv))
           (piece_at g (mv_from mv)) = Ok g3 ->
  grid_set g3 (fst (mv_to mv)) (snd (mv_to mv)) (piece_at g (mv_to mv))
  = Ok g4 ->
  g4 = g.
Proof.
  intros Hwf Hf Ht H3 H4.
  destruct (apply_grid_applied g mv Hwf Hf Ht) as [Hwf2 Hc2].
  destruct (grid_set_in_bounds _ _ _ (piece_at g (mv_from mv)) Hwf2 Hf)
    as (g3' & Hs3 & Hwf3 & Hc3).
  rewrite Hs3 in H3. injection H3 as ->.
  destruct (grid_set_in_bounds _ _ _ (piece_at g (mv_to mv)) Hwf3 Ht)
    as (g4' & Hs4 & Hwf4 & Hc4).
  rewrite Hs4 in H4. injection H4 as ->.
  apply grid_ext; auto.
  intros sq Hsq. rewrite (Hc4 sq Hsq), (Hc3 sq Hsq), (Hc2 sq Hsq).
  rewrite <- !surjective_pairing.
  destruct (sq_eqb sq (mv_to mv)) eqn:E1.
  { apply sq_eqb_eq in E1. now subst. }
  destruct (sq_eqb sq (mv_from mv)) eqn:E2.
  { apply sq_eqb_eq in E2. now subst. }
  reflexivity.
Qed.

(** ** The legality test *)

(** On an 8x8 board, for a move between squares of the board that takes a
    piece (or does not promote), [is_legal_move] returns normally, answers
    whether the mover's King is out of check in the applied position, and
    leaves the board as it found it. *)
Lemma is_legal_move_ok b mv col :
  wf_grid (grid b) ->
  sq_in_bounds (mv_from mv) = true -> sq_in_bounds (mv_to mv) = true ->
  mv_promo mv = None \/ piece_at (grid b) (mv_from mv) <> None ->
  is_legal_move mv col b
  = Ok (negb (in_check (apply_grid (grid b) mv) col), b).
Proof.
  intros Hwf Hf Ht Hp.
  destruct (apply_grid_steps _ mv Hwf Hf Ht) as (g1 & Hs1 & Hwf1 & Hs2 & Happ).
  pose proof Happ as [Hwf2 _].
  destruct (grid_set_in_bounds _ _ _ (piece_at (grid b) (mv_from mv)) Hwf2 Hf)
    as (g3 & Hs3 & Hwf3 & _).
  destruct (grid_set_in_bounds _ _ _ (piece_at (grid b) (mv_to mv)) Hwf3 Ht)
    as (g4 & Hs4 & _ & _).
  pose proof (undo_restores _ _ _ _ Hwf Hf Ht Hs3 Hs4) as ->.
  destruct mv as [[[r1 c1] [r2 c2]] promo].
  unfold mv_from, mv_to, mv_promo, sq_in_bounds, piece_at in *.
  simpl fst in *. simpl snd in *.
  unfold is_legal_move, bind.
  rewrite (get_cell_ok b r1 c1 Hwf Hf), (get_cell_ok b r2 c2 Hwf Ht).
  pose proof (placed_piece_ok (grid b) ((r1, c1), (r2, c2), promo) b Hp) as Hpl.
  unfold mv_from, mv_promo, piece_at in Hpl. simpl in Hpl. rewrite Hpl.
  unfold set_cell, gets, ret. simpl grid.
  rewrite Hs1. simpl grid. rewrite Hs2. simpl grid. rewrite Hs3. simpl grid.
  rewrite Hs4. rewrite !with_grid_twice, with_grid_id. reflexivity.
Qed.

(** ** Legal move generation *)


Lemma pseudo_moves_testable g sq p mv :
  sq_in_bounds sq = true -> piece_at g sq = Some p ->
  In mv (generate_pseudo_moves_from g sq p) -> testable g mv.
Proof.
  intros Hsq Hp Hin.
  destruct (pseudo_moves_sound _ _ _ _ Hin) as (Hf & Ht & _).
  unfold testable. rewrite Hf. repeat split; auto. congruence.
Qed.

Lemma inner_loop_ok b col pm :
  wf_grid (grid b) ->
  (forall mv, In mv pm -> testable (grid b) mv) ->
  forall acc,
  foldM (fun legal mv =>
           let* ok := is_legal_move mv col in
           ret (if ok then legal ++ [mv] else legal)) pm acc b
  = Ok (acc ++ List.filter
                 (fun mv => negb (in_check (apply_grid (grid b) mv) col)) pm,
        b).
Proof.
  intros Hwf. induction pm as [| mv pm IH]; intros Hall acc; simpl.
  - unfold ret. now rewrite app_nil_r.
  - destruct (Hall mv (or_introl eq_refl)) as (Hf & Ht & Hp).
    unfold bind at 1. unfold bind at 1.
    rewrite (is_legal_move_ok b mv col Hwf Hf Ht (or_intror Hp)).
    unfold ret at 1.
    rewrite IH by (intros mv' Hin; apply Hall; now right).
    destruct (negb _); [| reflexivity].
    now rewrite <- app_assoc.
Qed.

Lemma outer_loop_ok b col l :
  wf_grid (grid b) ->
  (forall sq, In sq l -> sq_in_bounds sq = true) ->
  forall acc,
  foldM (fun legal sq =>
    let* p := get_cell (fst sq) (snd sq) in
    match p with
    | Some pc =>
        if color_eqb (color pc) col then
          let* pm := gets (fun b => generate_pseudo_moves_from (grid b) sq pc) in
          foldM (fun legal mv =>
            let* ok := is_legal_move mv col in
            ret (if ok then legal ++ [mv] else legal)) pm legal
        else ret legal
    | None => ret legal
    end) l acc b
  = Ok (acc ++ flat_map (fun sq =>
          match piece_at (grid b) sq with
          | Some pc =>
              if color_eqb (color pc) col then
                List.filter
                  (fun mv => negb (in_check (apply_grid (grid b) mv) col))
                  (generate_pseudo_moves_from (grid b) sq pc)
              else []
          | None => []
          end) l, b).
Proof.
  intros Hwf. induction l as [| sq l IH]; intros Hall acc; simpl.
  - unfold ret. now rewrite app_nil_r.
  - pose proof (Hall sq (or_introl eq_refl)) as Hsq.
    unfold bind at 1. unfold bind at 1.
    rewrite (get_cell_ok b _ _ Hwf Hsq). fold (piece_at (grid b) sq).
    destruct (piece_at (grid b) sq) as [pc |] eqn:Hpc.
    + destruct (color_eqb (color pc) col).
      * unfold bind at 1, gets at 1.
        rewrite inner_loop_ok;
          [| assumption
           | intros mv Hin; eapply pseudo_moves_testable; eassumption].
        rewrite IH by (intros sq' Hin; apply Hall; now right).
        now rewrite <- app_assoc.
      * unfold ret at 1.
        rewrite IH by (intros sq' Hin; apply Hall; now right).
        reflexivity.
    + unfold ret at 1.
      rewrite IH by (intros sq' Hin; apply Hall; now right).
      reflexivity.
Qed.

(** On an 8x8 board [generate_legal_moves] returns normally, leaves the
    board as it found it, and returns [legal_moves_of]. *)
Lemma generate_legal_moves_ok b col :
  wf_grid (grid b) ->
  generate_legal_moves col b = Ok (legal_moves_of (grid b) col, b).
Proof.
  intros Hwf. unfold generate_legal_moves.
  rewrite outer_loop_ok; [reflexivity | assumption |].
  intros sq. apply in_squares.
Qed.

(** Membership in the list of legal moves. *)
Lemma in_legal_moves_of g col mv :
  In mv (legal_moves_of g col) <->
  exists sq pc,
    sq_in_bounds sq = true /\ piece_at g sq = Some pc /\ color pc = col /\
    In mv (generate_pseudo_moves_from g sq pc) /\
    in_check (apply_grid g mv) col = false.
Proof.
  unfold legal_moves_of. rewrite in_flat_map. split.
  - intros (sq & Hsq & Hin). apply in_squares in Hsq.
    destruct (piece_at g sq) as [pc |] eqn:Hpc; [| contradiction].
    destruct (color_eqb (color pc) col) eqn:Hc; [| contradiction].
    apply filter_In in Hin as [Hin Hchk].
    exists sq, pc. apply color_eqb_eq in Hc. apply negb_true_iff in Hchk. auto.
  - intros (sq & pc & Hsq & Hpc & Hc & Hin & Hchk).
    exists sq. split; [now apply in_squares |].
    rewrite Hpc. apply color_eqb_eq in Hc. rewrite Hc.
    apply filter_In. split; [assumption |]. now rewrite Hchk.
Qed.



(** ** Game state and move application *)

Lemma update_game_state_ok b :
  wf_grid (grid b) -> update_game_state b = Ok (tt, game_state_after b).
Proof.
  intros Hwf. unfold update_game_state, game_state_after, bind, gets.
  destruct (game_over b); [reflexivity |].
  rewrite (generate_legal_moves_ok b (turn b) Hwf).
  destruct (Nat.eqb _ 0); [| reflexivity].
  destruct (in_check _ _); reflexivity.
Qed.

Lemma grid_game_state_after b : grid (game_state_after b) = grid b.
Proof.
  unfold game_state_after.
  destruct (game_over b); [reflexivity |].
  destruct (Nat.eqb _ 0); [| reflexivity].
  destruct (in_check _ _); reflexivity.
Qed.

Lemma turn_game_state_after b : turn (game_state_after b) = turn b.
Proof.
  unfold game_state_after.
  destruct (game_over b); [reflexivity |].
  destruct (Nat.eqb _ 0); [| reflexivity].
  destruct (in_check _ _); reflexivity.
Qed.

Lemma grid_after_move b mv : grid (after_move b mv) = apply_grid (grid b) mv.
Proof.
  unfold after_move. rewrite grid_game_state_after.
  simpl. destruct (color_eqb _ _); reflexivity.
Qed.

Lemma turn_after_move b mv : turn (after_move b mv) = other (turn b).
Proof.
  unfold after_move. rewrite turn_game_state_after.
  simpl. destruct (color_eqb _ _); reflexivity.
Qed.

(** On an 8x8 board, for a move between squares of the board that takes a
    piece (or does not promote), [make_move] returns normally. *)
Lemma make_move_ok b mv :
  wf_grid (grid b) ->
  sq_in_bounds (mv_from mv) = true -> sq_in_bounds (mv_to mv) = true ->
  mv_promo mv = None \/ piece_at (grid b) (mv_from mv) <> None ->
  make_move mv b = Ok (tt, after_move b mv).
Proof.
  intros Hwf Hf Ht Hp.
  destruct (apply_grid_steps _ mv Hwf Hf Ht) as (g1 & Hs1 & Hwf1 & Hs2 & Happ).
  pose proof Happ as [Hwf2 _].
  pose proof (placed_piece_ok (grid b) mv b Hp) as Hpl.
  destruct mv as [[[r1 c1] [r2 c2]] promo].
  unfold mv_from, mv_to, mv_promo, sq_in_bounds, piece_at in *.
  simpl fst in *. simpl snd in *.
  unfold make_move, bind.
  rewrite (get_cell_ok b r1 c1 Hwf Hf), (get_cell_ok b r2 c2 Hwf Ht).
  rewrite Hpl.
  unfold set_cell, gets, ret, modify. simpl grid.
  rewrite Hs1. simpl grid. rewrite Hs2.
  rewrite with_grid_twice. unfold after_move. cbn [turn with_turn with_grid].
  destruct (color_eqb (other (turn b)) White); cbv beta iota;
    rewrite update_game_state_ok by exact Hwf2; reflexivity.
Qed.

(** ** Attack and check, declaratively *)

Lemma is_square_attacked_by_iff g sq col :
  is_square_attacked_by g sq col = true <-> attacked g sq col.
Proof.
  unfold is_square_attacked_by, attacked. rewrite existsb_exists. split.
  - intros (s & Hs & H). apply in_squares in Hs.
    fold (piece_at g s) in H.
    destruct (piece_at g s) as [p |] eqn:Hp; [| discriminate].
    apply andb_true_iff in H as [Hc H].
    apply existsb_exists in H as (mv & Hin & Heq).
    exists s, p, mv. apply color_eqb_eq in Hc. apply sq_eqb_eq in Heq. auto.
  - intros (s & p & mv & Hs & Hp & Hc & Hin & Heq).
    exists s. split; [now apply in_squares |].
    fold (piece_at g s). rewrite Hp.
    apply andb_true_iff. split; [now apply color_eqb_eq |].
    apply existsb_exists. exists mv. split; [assumption |].
    now apply sq_eqb_eq.
Qed.

Lemma king_position_some g col k :
  king_position g col = Some k ->
  sq_in_bounds k = true /\ is_king_of col (piece_at g k) = true.
Proof.
  unfold king_position. intros H. apply find_some in H as [Hin Hk].
  split; [now apply in_squares | exact Hk].
Qed.

Lemma king_position_none g col :
  king_position g col = None <->
  forall sq, sq_in_bounds sq = true -> is_king_of col (piece_at g sq) = false.
Proof.
  unfold king_position. split.
  - intros H sq Hsq. apply (find_none _ _ H sq). now apply in_squares.
  - intros H. destruct (find _ squares) as [k |] eqn:E; [| reflexivity].
    apply find_some in E as [Hin Hk]. apply in_squares in Hin.
    fold (piece_at g k) in Hk. rewrite (H k Hin) in Hk. discriminate.
Qed.

Lemma king_position_sole g col k :
  sole_king g col k -> king_position g col = Some k.
Proof.
  intros (Hk & Hking & Huniq).
  destruct (king_position g col) as [k' |] eqn:E.
  - apply king_position_some in E as [Hb' Hk']. f_equal. now apply Huniq.
  - rewrite king_position_none in E. rewrite (E k Hk) in Hking. discriminate.
Qed.

Lemma in_check_false_iff g col :
  in_check g col = false <->
  ~ exists k, king_position g col = Some k /\ attacked g k (other col).
Proof.
  unfold in_check. destruct (king_position g col) as [k |].
  - rewrite <- not_true_iff_false, is_square_attacked_by_iff. split.
    + intros H (k' & Hk' & Ha). injection Hk' as <-. auto.
    + intros H Ha. apply H. eauto.
  - split; [| reflexivity]. intros _ (k & Hk & _). discriminate.
Qed.

Lemma pawn_moves_promo g r c col mv :
  In mv (pawn_moves g r c col) ->
  mv_promo mv = promo_of (fst (mv_to mv)).
Proof.
  intros H. unfold pawn_moves in H.
  destruct (color_eqb col White); in_cases H; subst;
    unfold mv_promo, mv_to; simpl; try reflexivity;
    bools; subst; reflexivity.
Qed.

(** ** Frame properties of the mutating methods *)

Section Frame.
Variable R : Board -> Board -> Prop.
Hypothesis R_refl : forall b, R b b.
Hypothesis R_trans : forall b1 b2 b3, R b1 b2 -> R b2 b3 -> R b1 b3.
Hypothesis R_grid : forall b g, R b (with_grid g b).

Lemma keeps_ret {A} (a : A) : keeps R (ret a).
Proof. intros b a' b' H. injection H as _ <-. apply R_refl. Qed.

Lemma keeps_raise {A} e : keeps R (@raise A e).
Proof. intros b a b' H. discriminate. Qed.

Lemma keeps_gets {A} (f : Board -> A) : keeps R (gets f).
Proof. intros b a' b' H. injection H as _ <-. apply R_refl. Qed.

Lemma keeps_bind {A B} (m : M A) (k : A -> M B) :
  keeps R m -> (forall a, keeps R (k a)) -> keeps R (bind m k).
Proof.
  intros Hm Hk b r b' H. unfold bind in H.
  destruct (m b) as [[a b1] | e] eqn:E; [| discriminate].
  eapply R_trans; [eapply Hm | eapply Hk]; eassumption.
Qed.

Lemma keeps_get_cell r c : keeps R (get_cell r c).
Proof.
  intros b a b' H. unfold get_cell in H.
  destruct (grid_get _ _ _); [| discriminate].
  injection H as _ <-. apply R_refl.
Qed.

Lemma keeps_set_cell r c v : keeps R (set_cell r c v).
Proof.
  intros b a b' H. unfold set_cell in H.
  destruct (grid_set _ _ _ _); [| discriminate].
  injection H as _ <-. apply R_grid.
Qed.

Lemma keeps_placed_piece p promo : keeps R (placed_piece p promo).
Proof.
  unfold placed_piece. destruct promo; [destruct p |];
    auto using @keeps_ret, @keeps_raise.
Qed.

Lemma keeps_foldM {A S} (body : S -> A -> M S) l :
  (forall acc x, keeps R (body acc x)) ->
  forall acc, keeps R (foldM body l acc).
Proof.
  intros Hbody. induction l as [| x l IH]; intros acc; simpl.
  - apply keeps_ret.
  - apply keeps_bind; auto.
Qed.

Lemma keeps_is_legal_move mv col : keeps R (is_legal_move mv col).
Proof.
  destruct mv as [[[r1 c1] [r2 c2]] promo]. unfold is_legal_move.
  repeat (apply keeps_bind; [| intros ?]);
    auto using @keeps_ret, @keeps_gets, keeps_get_cell, keeps_set_cell,
               keeps_placed_piece.
Qed.

Lemma keeps_generate_legal_moves col : keeps R (generate_legal_moves col).
Proof.
  unfold generate_legal_moves. apply keeps_foldM. intros acc sq.
  apply keeps_bind; [apply keeps_get_cell |]. intros [pc |].
  - destruct (color_eqb _ _); [| apply keeps_ret].
    apply keeps_bind; [apply keeps_gets |]. intros pm.
    apply keeps_foldM. intros acc' mv.
    apply keeps_bind; [apply keeps_is_legal_move |]. intros ok.
    apply keeps_ret.
  - apply keeps_ret.
Qed.
End Frame.

Lemma same_clock_refl b : same_clock b b.
Proof. now repeat split. Qed.

Lemma same_clock_trans b1 b2 b3 :
  same_clock b1 b2 -> same_clock b2 b3 -> same_clock b1 b3.
Proof. unfold same_clock. intuition congruence. Qed.

Lemma same_clock_grid b g : same_clock b (with_grid g b).
Proof. now repeat split. Qed.

(** [update_game_state] never touches the side to move or the counters. *)
Lemma keeps_update_game_state : keeps same_clock update_game_state.
Proof.
  pose proof same_clock_refl as Hr. pose proof same_clock_trans as Ht.
  unfold update_game_state.
  apply (keeps_bind _ Ht); [apply (keeps_gets _ Hr) |]. intros [o |].
  - apply (keeps_ret _ Hr).
  - apply (keeps_bind _ Ht); [apply (keeps_gets _ Hr) |]. intros col.
    apply (keeps_bind _ Ht);
      [apply (keeps_generate_legal_moves _ Hr Ht same_clock_grid) |].
    intros legal. destruct (Nat.eqb _ 0); [| apply (keeps_ret _ Hr)].
    apply (keeps_bind _ Ht); [apply (keeps_gets _ Hr) |]. intros [|];
      intros b a b' H; injection H as _ <-; now repeat split.
Qed.

(** ** Kings *)

Lemma is_king_of_iff col o :
  is_king_of col o = true <-> o = Some (mkPiece col King).
Proof.
  unfold is_king_of. destruct o as [[c k] |]; simpl.
  - rewrite andb_true_iff, color_eqb_eq, kind_eqb_eq. split.
    + intros [-> ->]. reflexivity.
    + intros H. injection H as -> ->. auto.
  - split; discriminate.
Qed.

Lemma filter_length_one {A} (f : A -> bool) (l : list A) (k : A) :
  NoDup l -> In k l -> f k = true ->
  (forall x, In x l -> f x = true -> x = k) ->
  length (List.filter f l) = 1%nat.
Proof.
  induction l as [| x l IH]; intros Hnd Hin Hk Huniq; [contradiction |].
  apply NoDup_cons in Hnd as [Hx Hnd]. simpl.
  destruct (f x) eqn:Hfx.
  - assert (x = k) by (apply Huniq; [now left | assumption]). subst x.
    simpl. f_equal.
    assert (Hnil : List.filter f l = []).
    { destruct (List.filter f l) as [| y t] eqn:E; [reflexivity |].
      assert (Hy : In y (List.filter f l)) by (rewrite E; now left).
      apply filter_In in Hy as [Hy Hfy].
      assert (y = k) by (apply Huniq; [now right | assumption]). subst y.
      exfalso. apply Hx. now apply list_elem_of_In. }
    now rewrite Hnil.
  - destruct Hin as [-> | Hin]; [congruence |].
    apply IH; auto. intros y Hy. apply Huniq. now right.
Qed.

Lemma sole_king_count g col k :
  sole_king g col k -> count_kings g col = 1%nat.
Proof.
  intros (Hb & Hk & Huniq). unfold count_kings.
  apply filter_length_one with (k := k); auto.
  - apply NoDup_squares.
  - now apply in_squares.
  - intros x Hx. apply Huniq. now apply in_squares.
Qed.

Lemma sole_king_by_scan g col k :
  sq_in_bounds k = true ->
  is_king_of col (piece_at g k) = true ->
  forallb (fun sq => negb (is_king_of col (piece_at g sq)) || sq_eqb sq k)
          squares = true ->
  sole_king g col k.
Proof.
  intros Hb Hk Hscan. repeat split; auto.
  intros sq Hsq Hking. rewrite forallb_forall in Hscan.
  apply in_squares in Hsq. apply Hscan in Hsq.
  rewrite Hking in Hsq. simpl in Hsq. now apply sq_eqb_eq.
Qed.

Lemma play_inv_new_board : play_inv new_board.
Proof.
  split; [apply wf_gridb_spec; vm_compute; reflexivity |].
  split; [exists (7, 4); apply sole_king_by_scan; vm_compute; reflexivity |].
  split; [exists (0, 4); apply sole_king_by_scan; vm_compute; reflexivity |].
  vm_compute. reflexivity.
Qed.

(** On a board that satisfies the invariant, a legal move of the side to
    move never lands on a King. *)
Lemma legal_move_spares_kings b mv col :
  play_inv b ->
  In mv (legal_moves_of (grid b) (turn b)) ->
  is_king_of col (piece_at (grid b) (mv_to mv)) = false.
Proof.
  intros (Hwf & Hw & Hb & Hchk) Hin.
  apply in_legal_moves_of in Hin as (sq & pc & Hsq & Hpc & Hcol & Hin & _).
  destruct (pseudo_moves_sound _ _ _ _ Hin) as (Hf & Ht & Hne & Hocc & _).
  apply not_true_is_false. intros Hk. apply is_king_of_iff in Hk.
  destruct (color_eqb col (turn b)) eqn:E.
  - apply color_eqb_eq in E. subst col.
    unfold occupied_by in Hocc. unfold piece_at in Hk. rewrite Hk in Hocc.
    simpl in Hocc. rewrite Hcol, color_eqb_refl in Hocc. discriminate.
  - assert (Hother : col = other (turn b))
      by (destruct col, (turn b); simpl in *; congruence).
    assert (Hsole : exists k, sole_king (grid b) col k)
      by (destruct col; assumption).
    destruct Hsole as [k Hsole].
    assert (mv_to mv = k).
    { destruct Hsole as (_ & _ & Huniq). apply Huniq; auto.
      now apply is_king_of_iff. }
    subst k. rewrite <- Hother in Hchk.
    apply in_check_false_iff in Hchk. apply Hchk.
    exists (mv_to mv). split; [now apply king_position_sole |].
    exists sq, pc, mv. repeat split; auto.
    rewrite Hother, other_involutive. exact Hcol.
Qed.

(** The one King of a colour after a legal move: where it was, or on the
    destination when it is the King that moved. *)
Lemma sole_king_after_move b mv col k :
  play_inv b ->
  In mv (legal_moves_of (grid b) (turn b)) ->
  sole_king (grid b) col k ->
  sole_king (apply_grid (grid b) mv) col
            (if sq_eqb k (mv_from mv) then mv_to mv else k).
Proof.
  intros Hinv Hin (Hkb & Hk & Huniq).
  pose proof (legal_move_spares_kings b mv col Hinv Hin) as Hspare.
  pose proof Hinv as (Hwf & _).
  apply in_legal_moves_of in Hin as (sq & pc & Hsq & Hpc & Hcol & Hin & _).
  destruct (pseudo_moves_sound _ _ _ _ Hin) as (Hf & Ht & Hne & Hocc & Hpr).
  rewrite <- Hf in Hsq, Hne, Hpc.
  destruct (apply_grid_applied (grid b) mv Hwf Hsq Ht) as [Hwf' Hc].
  assert (Harr : forall c, is_king_of c (arriving (grid b) mv) = true ->
                 is_king_of c (piece_at (grid b) (mv_from mv)) = true).
  { intros c. unfold arriving. rewrite Hpc.
    destruct Hpr as [-> | [-> Hpawn]]; [auto |].
    unfold is_king_of. simpl. rewrite andb_false_r. discriminate. }
  assert (Hto : sq_eqb (mv_to mv) (mv_from mv) = false)
    by now apply sq_eqb_neq.
  destruct (sq_eqb k (mv_from mv)) eqn:E.
  - apply sq_eqb_eq in E. subst k. repeat split; [assumption | |].
    + rewrite (Hc _ Ht), Hto, sq_eqb_refl.
      unfold arriving. rewrite Hpc in *.
      destruct Hpr as [-> | [_ Hpawn]]; [exact Hk |].
      apply is_king_of_iff in Hk. injection Hk as Hk. subst pc.
      simpl in Hpawn. discriminate.
    + intros x Hx Hxk. rewrite (Hc x Hx) in Hxk.
      destruct (sq_eqb x (mv_from mv)) eqn:E1; [discriminate |].
      destruct (sq_eqb x (mv_to mv)) eqn:E2; [now apply sq_eqb_eq |].
      apply Huniq in Hxk; auto. subst x.
      rewrite sq_eqb_refl in E1. discriminate.
  - assert (E2 : sq_eqb k (mv_to mv) = false).
    { apply sq_eqb_neq. intros ->. congruence. }
    repeat split; [assumption | |].
    + now rewrite (Hc k Hkb), E, E2.
    + intros x Hx Hxk. rewrite (Hc x Hx) in Hxk.
      destruct (sq_eqb x (mv_from mv)); [discriminate |].
      destruct (sq_eqb x (mv_to mv)) eqn:E3; [| now apply Huniq].
      apply Harr in Hxk. apply Huniq in Hxk; auto. subst k.
      now rewrite sq_eqb_refl in E.
Qed.

Lemma play_inv_after_move b mv :
  play_inv b ->
  In mv (legal_moves_of (grid b) (turn b)) ->
  play_inv (after_move b mv).
Proof.
  intros Hinv Hin.
  pose proof (sole_king_after_move b mv White) as HW.
  pose proof (sole_king_after_move b mv Black) as HB.
  pose proof Hinv as (Hwf & [kw Hkw] & [kb Hkb] & _).
  pose proof Hin as Hin'.
  apply in_legal_moves_of in Hin' as (sq & pc & Hsq & Hpc & _ & Hps & Hchk).
  destruct (pseudo_moves_testable _ _ _ _ Hsq Hpc Hps) as (Hf & Ht & _).
  unfold play_inv. rewrite grid_after_move, turn_after_move, other_involutive.
  split; [apply (apply_grid_applied _ _ Hwf Hf Ht) |].
  split; [eexists; apply (HW kw); assumption |].
  split; [eexists; apply (HB kb); assumption |].
  exact Hchk.
Qed.

(** Every step of play is a [make_move] of a legal move, in closed form. *)
Lemma legal_step_inv b b' :
  wf_grid (grid b) -> legal_step b b' ->
  exists mv, In mv (legal_moves_of (grid b) (turn b)) /\
             b' = after_move b mv.
Proof.
  intros Hwf (l & b1 & mv & Hgen & Hin & Hmk).
  rewrite (generate_legal_moves_ok b _ Hwf) in Hgen.
  injection Hgen as <- <-. exists mv. split; [assumption |].
  pose proof Hin as Hin'.
  apply in_legal_moves_of in Hin' as (sq & pc & Hsq & Hpc & _ & Hps & _).
  destruct (pseudo_moves_testable _ _ _ _ Hsq Hpc Hps) as (Hf & Ht & Hp).
  rewrite (make_move_ok b mv Hwf Hf Ht (or_intror Hp)) in Hmk.
  now injection Hmk as <-.
Qed.

Lemma reachable_play_inv b : reachable b -> play_inv b.
Proof.
  induction 1 as [| b b' _ IH Hstep]; [apply play_inv_new_board |].
  destruct (legal_step_inv b b' (proj1 IH) Hstep) as (mv & Hin & ->).
  now apply play_inv_after_move.
Qed.

Lemma winner_iff_checkmate_after b :
  winner_iff_checkmate b -> winner_iff_checkmate (game_state_after b).
Proof.
  unfold winner_iff_checkmate, game_state_after. intros H.
  destruct (game_over b) eqn:Hover; [now rewrite Hover |].
  destruct (Nat.eqb _ 0); [| now rewrite Hover].
  destruct (in_check _ _); simpl; split; congruence.
Qed.

Lemma winner_iff_checkmate_after_move b mv :
  winner_iff_checkmate b -> winner_iff_checkmate (after_move b mv).
Proof.
  intros H. unfold after_move. apply winner_iff_checkmate_after.
  cbn [turn with_turn with_grid].
  destruct (color_eqb _ _); exact H.
Qed.

(** ** The model at work *)

(** Promoting from an empty square reads [piece.color] on [None]:
    [make_move] raises and the board is not updated. *)
Example make_move_raises_on_empty_origin :
  make_move ((4, 4), (3, 4), Some Queen) new_board = Raise AttributeError.
Proof. vm_compute. reflexivity. Qed.

(** A square outside the grid raises [IndexError]. *)
Example make_move_raises_off_board :
  make_move ((6, 4), (8, 4), None) new_board = Raise IndexError.
Proof. vm_compute. reflexivity. Qed.

(** Fool's mate ends the game by checkmate, Black has won. *)
Example fools_mate :
  play fools_mate_moves new_board = Ok (tt, board_after fools_mate_moves) /\
  game_over (board_after fools_mate_moves) = Some checkmate /\
  winner (board_after fools_mate_moves) = Some Black /\
  turn (board_after fools_mate_moves) = White /\
  fullmove_number (board_after fools_mate_moves) = 3.
Proof. vm_compute. repeat split. Qed.

(** The stalemate position: no legal move, no check. *)
Example stalemate_position :
  generate_legal_moves White stalemate_board = Ok ([], stalemate_board) /\
  in_check (grid stalemate_board) White = false /\
  update_game_state stalemate_board
  = Ok (tt, with_result (Some stalemate) None stalemate_board).
Proof. vm_compute. repeat split. Qed.

(** One more legal move keeps a line of play reachable. *)
Lemma reachable_snoc mvs mv :
  reachable (board_after mvs) ->
  In mv (legal_moves_of (grid (board_after mvs)) (turn (board_after mvs))) ->
  make_move mv (board_after mvs) = Ok (tt, board_after (mvs ++ [mv])) ->
  reachable (board_after (mvs ++ [mv])).
Proof.
  intros Hr Hin Hmk. apply (reach_step _ _ Hr).
  exists (legal_moves_of (grid (board_after mvs)) (turn (board_after mvs))),
         (board_after mvs), mv.
  split; [| split; assumption].
  apply generate_legal_moves_ok. apply (reachable_play_inv _ Hr).
Qed.

Ltac pick_move := vm_compute; repeat (first [left; reflexivity | right]).

(** The line of fool's mate is made of legal moves. *)
Lemma reachable_fools_mate : reachable (board_after fools_mate_moves).
Proof.
  assert (H0 : reachable (board_after [])) by apply reach_init.
  pose proof (reachable_snoc [] ((6, 5), (5, 5), None) H0) as H1.
  cbn [app] in H1.
  specialize (H1 ltac:(pick_move) ltac:(vm_compute; reflexivity)).
  pose proof (reachable_snoc _ ((1, 4), (3, 4), None) H1) as H2.
  cbn [app] in H2.
  specialize (H2 ltac:(pick_move) ltac:(vm_compute; reflexivity)).
  pose proof (reachable_snoc _ ((6, 6), (4, 6), None) H2) as H3.
  cbn [app] in H3.
  specialize (H3 ltac:(pick_move) ltac:(vm_compute; reflexivity)).
  pose proof (reachable_snoc _ ((0, 3), (4, 7), None) H3) as H4.
  cbn [app] in H4.
  specialize (H4 ltac:(pick_move) ltac:(vm_compute; reflexivity)).
  exact H4.
Qed.

(** * The claims *)

(** C1.  On every 8x8 board and for either side, [generate_legal_moves]
    returns a list of moves, and applying any one of them with [make_move]
    succeeds and yields a board on which that side is not in check. *)
Theorem legal_moves_never_leave_own_king_in_check b col :
  wf_grid (grid b) ->
  exists legal,
    generate_legal_moves col b = Ok (legal, b) /\
    forall mv, In mv legal ->
      exists b', make_move mv b = Ok (tt, b') /\
                 in_check (grid b') col = false.
Proof.
  intros Hwf. exists (legal_moves_of (grid b) col).
  split; [now apply generate_legal_moves_ok |].
  intros mv Hin.
  apply in_legal_moves_of in Hin as (sq & pc & Hsq & Hpc & _ & Hin & Hchk).
  destruct (pseudo_moves_testable _ _ _ _ Hsq Hpc Hin) as (Hf & Ht & Hp).
  exists (after_move b mv). split.
  - apply make_move_ok; auto.
  - now rewrite grid_after_move.
Qed.

Lemma legal_moves_never_leave_own_king_in_check_witness :
  exists legal,
    generate_legal_moves White new_board = Ok (legal, new_board) /\
    forall mv, In mv legal ->
      exists b', make_move mv new_board = Ok (tt, b') /\
                 in_check (grid b') White = false.
Proof.
  apply (legal_moves_never_leave_own_king_in_check new_board White).
  apply wf_gridb_spec. vm_compute. reflexivity.
Defined.

(** C2.  For a move between squares of the board whose origin holds a
    piece (every pseudo-move is one), [is_legal_move] returns normally and
    answers [True] exactly when, in the position obtained by applying the
    move, the mover's King (the one [in_check] looks at, i.e. the one
    found by [king_position]) is not attacked by the other side; when that
    position holds a single King of the colour, this is that King. *)
Theorem is_legal_move_iff_king_safe b col mv g' :
  wf_grid (grid b) ->
  testable (grid b) mv ->
  applied (grid b) mv g' ->
  exists res,
    is_legal_move mv col b = Ok (res, b) /\
    (res = true <->
       ~ exists k, king_position g' col = Some k /\
                   attacked g' k (other col)) /\
    (forall k, sole_king g' col k ->
       (res = true <-> ~ attacked g' k (other col))).
Proof.
  intros Hwf (Hf & Ht & Hp) Happ.
  apply (applied_unique _ _ _ Hwf Hf Ht) in Happ. subst g'.
  exists (negb (in_check (apply_grid (grid b) mv) col)).
  split; [apply is_legal_move_ok; auto |].
  split; [rewrite negb_true_iff; apply in_check_false_iff |].
  intros k Hk. rewrite negb_true_iff, in_check_false_iff.
  rewrite (king_position_sole _ _ _ Hk). split.
  - intros H Ha. apply H. eauto.
  - intros H (k' & Hk' & Ha). injection Hk' as <-. auto.
Qed.

Lemma is_legal_move_iff_king_safe_witness :
  exists res,
    is_legal_move ((6, 4), (4, 4), None) White new_board
    = Ok (res, new_board) /\
    (res = true <->
       ~ exists k,
           king_position
             (apply_grid (grid new_board) ((6, 4), (4, 4), None)) White
           = Some k /\
           attacked (apply_grid (grid new_board) ((6, 4), (4, 4), None))
                    k (other White)) /\
    (forall k,
       sole_king (apply_grid (grid new_board) ((6, 4), (4, 4), None))
                 White k ->
       (res = true <->
          ~ attacked (apply_grid (grid new_board) ((6, 4), (4, 4), None))
                     k (other White))).
Proof.
  apply (is_legal_move_iff_king_safe new_board White ((6, 4), (4, 4), None)).
  - apply wf_gridb_spec. vm_compute. reflexivity.
  - split; [vm_compute; reflexivity |].
    split; [vm_compute; reflexivity |].
    vm_compute. discriminate.
  - split; [apply wf_gridb_spec; vm_compute; reflexivity |].
    intros sq Hsq. apply in_squares in Hsq.
    unfold squares, range8 in Hsq. simpl in Hsq.
    repeat (destruct Hsq as [<- | Hsq]; [vm_compute; reflexivity |]).
    contradiction.
Defined.

(** C3.  On an 8x8 board whose [game_over] is [None], [update_game_state]
    returns and: with no legal move for the side to move and that side in
    check, it records checkmate and the other side as winner; with no
    legal move and no check, it records stalemate and no winner; with some
    legal move, [game_over] stays [None] and [winner] is untouched. *)
Theorem update_game_state_cases b :
  wf_grid (grid b) -> game_over b = None ->
  exists legal b',
    generate_legal_moves (turn b) b = Ok (legal, b) /\
    update_game_state b = Ok (tt, b') /\
    (legal = [] -> in_check (grid b) (turn b) = true ->
       game_over b' = Some checkmate /\ winner b' = Some (other (turn b))) /\
    (legal = [] -> in_check (grid b) (turn b) = false ->
       game_over b' = Some stalemate /\ winner b' = None) /\
    (legal <> [] -> game_over b' = None /\ winner b' = winner b).
Proof.
  intros Hwf Hover.
  exists (legal_moves_of (grid b) (turn b)), (game_state_after b).
  split; [now apply generate_legal_moves_ok |].
  split; [now apply update_game_state_ok |].
  unfold game_state_after. rewrite Hover.
  destruct (legal_moves_of (grid b) (turn b)) as [| mv l]; simpl.
  - destruct (in_check (grid b) (turn b)); simpl;
      (split; [| split]); intros; try discriminate; try contradiction; auto.
  - (split; [| split]); intros; try discriminate; auto.
Qed.

Lemma update_game_state_cases_witness :
  exists legal b',
    generate_legal_moves (turn stalemate_board) stalemate_board
    = Ok (legal, stalemate_board) /\
    update_game_state stalemate_board = Ok (tt, b') /\
    (legal = [] ->
     in_check (grid stalemate_board) (turn stalemate_board) = true ->
       game_over b' = Some checkmate /\
       winner b' = Some (other (turn stalemate_board))) /\
    (legal = [] ->
     in_check (grid stalemate_board) (turn stalemate_board) = false ->
       game_over b' = Some stalemate /\ winner b' = None) /\
    (legal <> [] ->
       game_over b' = None /\ winner b' = winner stalemate_board).
Proof.
  apply (update_game_state_cases stalemate_board).
  - apply wf_gridb_spec. vm_compute. reflexivity.
  - vm_compute. reflexivity.
Defined.

(** C4.  [Board()] is built without error, has White to move, and
    [generate_legal_moves] for White returns exactly the twenty moves of
    [start_moves]: sixteen moves of pawns, a single and a double step for
    each of the eight, and four moves of knights. *)
Theorem twenty_moves_at_start :
  Board_init = Ok (tt, new_board) /\
  turn new_board = White /\
  generate_legal_moves White new_board = Ok (start_moves, new_board) /\
  length start_moves = 20%nat /\
  moves_of_kind (grid new_board) Pawn start_moves =
    flat_map (fun c => [((6, c), (5, c), None); ((6, c), (4, c), None)])
             range8 /\
  length (moves_of_kind (grid new_board) Pawn start_moves) = 16%nat /\
  length (moves_of_kind (grid new_board) Knight start_moves) = 4%nat.
Proof.
  split; [vm_compute; reflexivity |].
  split; [vm_compute; reflexivity |].
  split; [vm_compute; reflexivity |].
  split; [vm_compute; reflexivity |].
  split; [vm_compute; reflexivity |].
  split; vm_compute; reflexivity.
Qed.

(** C5.  Every board reached from [Board()] by applying legal moves of
    the side to move (whatever [game_over] says, hence in particular while
    it is [None]) has exactly one King of each colour; a legal move of the
    side to move never lands on a King and never promotes to one. *)
Theorem one_king_of_each_color b :
  reachable b ->
  count_kings (grid b) White = 1%nat /\
  count_kings (grid b) Black = 1%nat /\
  forall legal b1 mv col,
    generate_legal_moves (turn b) b = Ok (legal, b1) -> In mv legal ->
    is_king_of col (piece_at (grid b) (mv_to mv)) = false /\
    mv_promo mv <> Some King.
Proof.
  intros Hr. apply reachable_play_inv in Hr.
  pose proof Hr as (Hwf & [kw Hkw] & [kb Hkb] & _).
  split; [eapply sole_king_count; eassumption |].
  split; [eapply sole_king_count; eassumption |].
  intros legal b1 mv col Hgen Hin.
  rewrite (generate_legal_moves_ok b _ Hwf) in Hgen. injection Hgen as <- <-.
  split; [now apply legal_move_spares_kings |].
  apply in_legal_moves_of in Hin as (sq & pc & _ & _ & _ & Hps & _).
  destruct (pseudo_moves_sound _ _ _ _ Hps) as (_ & _ & _ & _ & Hpr).
  destruct Hpr as [-> | [-> _]]; discriminate.
Qed.

Lemma one_king_of_each_color_witness :
  count_kings (grid (board_after fools_mate_moves)) White = 1%nat /\
  count_kings (grid (board_after fools_mate_moves)) Black = 1%nat /\
  forall legal b1 mv col,
    generate_legal_moves (turn (board_after fools_mate_moves))
                         (board_after fools_mate_moves) = Ok (legal, b1) ->
    In mv legal ->
    is_king_of col (piece_at (grid (board_after fools_mate_moves))
                             (mv_to mv)) = false /\
    mv_promo mv <> Some King.
Proof.
  apply (one_king_of_each_color (board_after fools_mate_moves)).
  apply reachable_fools_mate.
Defined.

(** C6.  On an 8x8 board, for a move between squares of the board whose
    origin holds a piece, [is_legal_move] returns and leaves the board
    exactly as it was: every square, the side to move, the move number,
    [game_over] and [winner].  (Origin and destination need not differ.) *)
Theorem is_legal_move_leaves_board_unchanged b col mv :
  wf_grid (grid b) ->
  testable (grid b) mv ->
  exists res b',
    is_legal_move mv col b = Ok (res, b') /\
    b' = b /\
    (forall sq, piece_at (grid b') sq = piece_at (grid b) sq) /\
    turn b' = turn b /\ fullmove_number b' = fullmove_number b /\
    game_over b' = game_over b /\ winner b' = winner b.
Proof.
  intros Hwf (Hf & Ht & Hp).
  exists (negb (in_check (apply_grid (grid b) mv) col)), b.
  split; [apply is_legal_move_ok; auto |]. repeat split.
Qed.

Lemma is_legal_move_leaves_board_unchanged_witness :
  exists res b',
    is_legal_move ((6, 4), (4, 4), None) White new_board = Ok (res, b') /\
    b' = new_board /\
    (forall sq, piece_at (grid b') sq = piece_at (grid new_board) sq) /\
    turn b' = turn new_board /\
    fullmove_number b' = fullmove_number new_board /\
    game_over b' = game_over new_board /\ winner b' = winner new_board.
Proof.
  apply (is_legal_move_leaves_board_unchanged new_board White
           ((6, 4), (4, 4), None)).
  - apply wf_gridb_spec. vm_compute. reflexivity.
  - split; [vm_compute; reflexivity |].
    split; [vm_compute; reflexivity |].
    vm_compute. discriminate.
Defined.

(** C7.  A pawn pseudo-move carries [promotion = Queen] when its
    destination is on row 0 or row 7 and [promotion = None] otherwise.  A
    White pawn on e7 (row 1, column 4) with e8 (row 0, column 4) empty
    generates (e7, e8, Queen), and [make_move] of that move returns with a
    White Queen on e8. *)
Theorem pawn_promotes_to_queen_on_final_rank :
  (forall g sq p mv,
     kind p = Pawn ->
     In mv (generate_pseudo_moves_from g sq p) ->
     mv_promo mv =
       if (fst (mv_to mv) =? 0) || (fst (mv_to mv) =? 7)
       then Some Queen else None) /\
  (forall b,
     wf_grid (grid b) ->
     piece_at (grid b) (1, 4) = Some (mkPiece White Pawn) ->
     piece_at (grid b) (0, 4) = None ->
     In ((1, 4), (0, 4), Some Queen)
        (generate_pseudo_moves_from (grid b) (1, 4) (mkPiece White Pawn)) /\
     exists b',
       make_move ((1, 4), (0, 4), Some Queen) b = Ok (tt, b') /\
       piece_at (grid b') (0, 4) = Some (mkPiece White Queen)).
Proof.
  split.
  - intros g [r c] p mv Hk Hin. unfold generate_pseudo_moves_from in Hin.
    rewrite Hk in Hin. now apply pawn_moves_promo in Hin.
  - intros b Hwf Hp He. split.
    + unfold generate_pseudo_moves_from, pawn_moves.
      cbn [kind color color_eqb]. cbv zeta.
      replace (empty (grid b) (1 + -1) 4) with true
        by (symmetry; apply empty_true; exact He).
      apply in_or_app. left.
      change (in_bounds (1 + -1) 4) with true. cbn [andb].
      left. reflexivity.
    + exists (after_move b ((1, 4), (0, 4), Some Queen)). split.
      * apply make_move_ok; auto. right.
        unfold mv_from. simpl. rewrite Hp. discriminate.
      * rewrite grid_after_move.
        destruct (apply_grid_applied (grid b) ((1, 4), (0, 4), Some Queen))
          as [_ Hc]; auto.
        rewrite (Hc (0, 4) eq_refl). cbn. unfold arriving, mv_promo, mv_from.
        simpl. now rewrite Hp.
Qed.


Lemma pawn_promotes_to_queen_on_final_rank_witness :
  mv_promo ((1, 4), (0, 4), Some Queen) = Some Queen /\
  exists b',
    make_move ((1, 4), (0, 4), Some Queen) promotion_board = Ok (tt, b') /\
    piece_at (grid b') (0, 4) = Some (mkPiece White Queen).
Proof.
  destruct pawn_promotes_to_queen_on_final_rank as [Hgen Happ].
  destruct (Happ promotion_board) as [Hin Hmk];
    [apply wf_gridb_spec; vm_compute; reflexivity
     | vm_compute; reflexivity | vm_compute; reflexivity |].
  split; [| exact Hmk].
  apply (Hgen (grid promotion_board) (1, 4) (mkPiece White Pawn) _
              eq_refl Hin).
Defined.

(** C8.  Whenever [make_move] returns, the side to move is the opposite
    of what it was, and [fullmove_number] has grown by one exactly when
    the side that was to move was Black; and it does return on an 8x8
    board for every move between squares of the board that takes a piece
    or does not promote. *)
Theorem make_move_flips_turn b mv :
  (forall b', make_move mv b = Ok (tt, b') ->
     turn b' = other (turn b) /\
     fullmove_number b' =
       if color_eqb (turn b) Black then fullmove_number b + 1
       else fullmove_number b) /\
  (wf_grid (grid b) ->
   sq_in_bounds (mv_from mv) = true -> sq_in_bounds (mv_to mv) = true ->
   mv_promo mv = None \/ piece_at (grid b) (mv_from mv) <> None ->
   exists b', make_move mv b = Ok (tt, b')).
Proof.
  split.
  - intros b' H. destruct mv as [[[r1 c1] [r2 c2]] promo].
    unfold make_move, bind in H.
    destruct (get_cell r1 c1 b) as [[piece b1] |] eqn:E1; [| discriminate].
    apply (keeps_get_cell eq (@eq_refl _)) in E1. subst b1.
    destruct (get_cell r2 c2 b) as [[captured b1] |] eqn:E2; [| discriminate].
    apply (keeps_get_cell eq (@eq_refl _)) in E2. subst b1.
    destruct (placed_piece piece promo b) as [[np b1] |] eqn:E3;
      [| discriminate].
    apply (keeps_placed_piece eq (@eq_refl _)) in E3. subst b1.
    destruct (set_cell r2 c2 np b) as [[[] b1] |] eqn:E4; [| discriminate].
    apply (keeps_set_cell same_clock same_clock_grid) in E4.
    destruct (set_cell r1 c1 None b1) as [[[] b2] |] eqn:E5; [| discriminate].
    apply (keeps_set_cell same_clock same_clock_grid) in E5.
    pose proof (same_clock_trans _ _ _ E4 E5) as (Ht & _ & Hn).
    unfold modify, gets in H. cbn [turn with_turn] in H.
    rewrite Ht in H.
    destruct (turn b); cbn [other color_eqb] in *;
      apply keeps_update_game_state in H; destruct H as (Ht' & _ & Hn');
      cbn in Ht', Hn'; split; congruence.
  - intros Hwf Hf Hto Hp. eexists. now apply make_move_ok.
Qed.

Lemma make_move_flips_turn_witness :
  exists b', make_move ((6, 4), (4, 4), None) new_board = Ok (tt, b') /\
             turn b' = Black /\ fullmove_number b' = 1.
Proof.
  destruct (make_move_flips_turn new_board ((6, 4), (4, 4), None))
    as [Hpost Hret].
  destruct Hret as [b' Hb'];
    [apply wf_gridb_spec; vm_compute; reflexivity
     | vm_compute; reflexivity | vm_compute; reflexivity
     | left; reflexivity |].
  exists b'. split; [exact Hb' |]. apply (Hpost b' Hb').
Defined.

(** C9.  On [Board()] and on every board reached from it by applying
    legal moves, [winner] is not [None] exactly when [game_over] is
    ['checkmate']. *)
Theorem winner_set_iff_checkmate b :
  reachable b -> (winner b <> None <-> game_over b = Some checkmate).
Proof.
  induction 1 as [| b b' Hr IH Hstep].
  - vm_compute. split; [intros H; now contradiction H | discriminate].
  - apply reachable_play_inv in Hr.
    destruct (legal_step_inv b b' (proj1 Hr) Hstep) as (mv & _ & ->).
    now apply winner_iff_checkmate_after_move.
Qed.

Lemma winner_set_iff_checkmate_witness :
  winner (board_after fools_mate_moves) <> None <->
  game_over (board_after fools_mate_moves) = Some checkmate.
Proof.
  apply (winner_set_iff_checkmate (board_after fools_mate_moves)).
  apply reachable_fools_mate.
Defined.

(** C10.  On an 8x8 grid on which no square holds a King of the colour,
    the scan of [king_position] reads every square without error and
    finds nothing, and [in_check] answers [False]. *)
Theorem in_check_false_without_king g col :
  wf_grid g ->
  (forall sq, sq_in_bounds sq = true ->
     piece_at g sq <> Some (mkPiece col King)) ->
  (forall sq, In sq squares ->
     exists p, grid_get g (fst sq) (snd sq) = Ok p) /\
  king_position g col = None /\
  in_check g col = false.
Proof.
  intros Hwf Hnone.
  assert (Hk : king_position g col = None).
  { apply king_position_none. intros sq Hsq. specialize (Hnone sq Hsq).
    unfold is_king_of. destruct (piece_at g sq) as [[c k] |]; [| reflexivity].
    simpl. destruct (color_eqb c col) eqn:Hc; [| reflexivity].
    destruct (kind_eqb k King) eqn:Hkd; [| reflexivity].
    apply color_eqb_eq in Hc. apply kind_eqb_eq in Hkd. subst.
    now contradiction Hnone. }
  split; [| split; [exact Hk |]].
  - intros sq Hsq. apply in_squares in Hsq.
    destruct (grid_get_in_bounds g _ _ Hwf Hsq) as (_ & _ & _ & _ & H).
    eauto.
  - unfold in_check. now rewrite Hk.
Qed.

Lemma in_check_false_without_king_witness :
  (forall sq, In sq squares ->
     exists p, grid_get (grid blank_board) (fst sq) (snd sq) = Ok p) /\
  king_position (grid blank_board) White = None /\
  in_check (grid blank_board) White = false.
Proof.
  apply (in_check_false_without_king (grid blank_board) White).
  - apply wf_gridb_spec. vm_compute. reflexivity.
  - intros sq Hsq. apply in_squares in Hsq.
    unfold squares, range8 in Hsq. simpl in Hsq.
    repeat (destruct Hsq as [<- | Hsq]; [vm_compute; discriminate |]).
    contradiction.
Defined.

(** * Further properties of the engine *)

(** ** The shape of pseudo-moves *)

(** X1.  The pseudo-moves of a Knight are exactly the moves, without
    promotion, to the squares of the board one row and two columns, or two
    rows and one column, away that hold no piece of its colour. *)
Theorem knight_moves_iff g r c p mv :
  kind p = Knight ->
  (In mv (generate_pseudo_moves_from g (r, c) p) <->
   exists nr nc,
     mv = ((r, c), (nr, nc), None) /\
     in_bounds nr nc = true /\
     occupied_by g nr nc (color p) = false /\
     ((Z.abs (nr - r) = 1 /\ Z.abs (nc - c) = 2) \/
      (Z.abs (nr - r) = 2 /\ Z.abs (nc - c) = 1))).
Proof.
  intros Hk. unfold generate_pseudo_moves_from. rewrite Hk. split.
  - intros H. unfold knight_moves, knight_offsets in H.
    in_cases H; subst; bools;
      (eexists; eexists; split; [reflexivity |]; split;
       [apply in_bounds_spec; lia | split; [assumption | lia]]).
  - intros (nr & nc & -> & Hb & Ho & Hgeo).
    unfold knight_moves. apply in_flat_map.
    exists (nr - r, nc - c). split.
    + unfold knight_offsets. simpl.
      assert (Hd : (nr - r = -2 \/ nr - r = -1 \/ nr - r = 1 \/ nr - r = 2) /\
                   (nc - c = -2 \/ nc - c = -1 \/ nc - c = 1 \/ nc - c = 2))
        by lia.
      destruct Hd as [Hr Hc].
      destruct Hr as [Hr | [Hr | [Hr | Hr]]];
        destruct Hc as [Hc | [Hc | [Hc | Hc]]];
        try lia; rewrite Hr, Hc; auto 20.
    + simpl fst. simpl snd.
      replace (r + (nr - r)) with nr by lia.
      replace (c + (nc - c)) with nc by lia.
      rewrite Hb, Ho. simpl. now left.
Qed.

Lemma knight_moves_iff_witness :
  In ((7, 1), (5, 2), None)
     (generate_pseudo_moves_from (grid new_board) (7, 1)
        (mkPiece White Knight)) <->
  exists nr nc,
    ((7, 1), (5, 2), None) = ((7, 1), (nr, nc), @None PieceType) /\
    in_bounds nr nc = true /\
    occupied_by (grid new_board) nr nc (color (mkPiece White Knight)) = false /\
    ((Z.abs (nr - 7) = 1 /\ Z.abs (nc - 1) = 2) \/
     (Z.abs (nr - 7) = 2 /\ Z.abs (nc - 1) = 1)).
Proof.
  apply (knight_moves_iff (grid new_board) 7 1 (mkPiece White Knight)).
  reflexivity.
Defined.

(** X2.  The pseudo-moves of a King are exactly the moves, without
    promotion, to the adjacent squares of the board that hold no piece of
    its colour. *)
Theorem king_moves_iff g r c p mv :
  kind p = King ->
  (In mv (generate_pseudo_moves_from g (r, c) p) <->
   exists nr nc,
     mv = ((r, c), (nr, nc), None) /\
     in_bounds nr nc = true /\
     occupied_by g nr nc (color p) = false /\
     Z.abs (nr - r) <= 1 /\ Z.abs (nc - c) <= 1 /\ (nr, nc) <> (r, c)).
Proof.
  intros Hk. unfold generate_pseudo_moves_from. rewrite Hk. split.
  - intros H. unfold king_moves in H.
    in_cases H; subst; bools;
      (eexists; eexists; split; [reflexivity |]; split;
       [apply in_bounds_spec; lia |
        split; [assumption |
                split; [lia | split; [lia | intros Heq; injection Heq; lia]]]]).
  - intros (nr & nc & -> & Hb & Ho & Hr & Hc & Hne).
    unfold king_moves. apply in_flat_map. exists (nr - r). split.
    { simpl. lia. }
    apply in_flat_map. exists (nc - c). split.
    { simpl. lia. }
    replace (r + (nr - r)) with nr by lia.
    replace (c + (nc - c)) with nc by lia.
    destruct ((nr - r =? 0) && (nc - c =? 0)) eqn:E.
    + bools. exfalso. apply Hne. f_equal; lia.
    + rewrite Hb, Ho. simpl. now left.
Qed.

Lemma king_moves_iff_witness :
  In ((7, 0), (6, 0), None)
     (generate_pseudo_moves_from (grid stalemate_board) (7, 0)
        (mkPiece White King)) <->
  exists nr nc,
    ((7, 0), (6, 0), None) = ((7, 0), (nr, nc), @None PieceType) /\
    in_bounds nr nc = true /\
    occupied_by (grid stalemate_board) nr nc (color (mkPiece White King))
    = false /\
    Z.abs (nr - 7) <= 1 /\ Z.abs (nc - 0) <= 1 /\ (nr, nc) <> (7, 0).
Proof.
  apply (king_moves_iff (grid stalemate_board) 7 0 (mkPiece White King)).
  reflexivity.
Defined.

Lemma ray_iff g col r c dr dc mv :
  forall fuel k0,
  In mv (ray fuel g col r c (r + k0 * dr) (c + k0 * dc) dr dc) <->
  exists k,
    k0 <= k < k0 + Z.of_nat fuel /\
    mv = ((r, c), (r + k * dr, c + k * dc), None) /\
    (forall j, k0 <= j <= k -> in_bounds (r + j * dr) (c + j * dc) = true) /\
    (forall j, k0 <= j < k -> empty g (r + j * dr) (c + j * dc) = true) /\
    occupied_by g (r + k * dr) (c + k * dc) col = false.
Proof.
  induction fuel as [| fuel IH]; intros k0.
  - simpl. split; [contradiction |]. intros (k & Hk & _). lia.
  - cbn [ray].
    replace (r + k0 * dr + dr) with (r + (k0 + 1) * dr) by lia.
    replace (c + k0 * dc + dc) with (c + (k0 + 1) * dc) by lia.
    destruct (in_bounds (r + k0 * dr) (c + k0 * dc)) eqn:Hb.
    2:{ split; [contradiction |]. intros (k & Hk & _ & Hin & _).
        rewrite Hin in Hb by lia. discriminate. }
    destruct (occupied_by g (r + k0 * dr) (c + k0 * dc) col) eqn:Ho.
    { split; [contradiction |]. intros (k & Hk & _ & _ & Hemp & Hocc).
      destruct (Z.eq_dec k k0) as [-> | Hne]; [congruence |].
      assert (He : empty g (r + k0 * dr) (c + k0 * dc) = true)
        by (apply Hemp; lia).
      apply empty_not_occupied with (col := col) in He. congruence. }
    split.
    + intros [<- | H].
      * exists k0. split; [lia |]. split; [reflexivity |].
        split; [intros j Hj; replace j with k0 by lia; assumption |].
        split; [intros j Hj; lia | assumption].
      * destruct (empty g (r + k0 * dr) (c + k0 * dc)) eqn:He;
          [| contradiction].
        simpl in H. apply IH in H as (k & Hk & -> & Hin & Hemp & Hocc).
        exists k. split; [lia |]. split; [reflexivity |].
        split.
        { intros j Hj. destruct (Z.eq_dec j k0) as [-> | Hne];
            [assumption | apply Hin; lia]. }
        split; [| assumption].
        intros j Hj. destruct (Z.eq_dec j k0) as [-> | Hne];
          [assumption | apply Hemp; lia].
    + intros (k & Hk & -> & Hin & Hemp & Hocc).
      destruct (Z.eq_dec k k0) as [-> | Hne]; [now left |].
      right. rewrite (Hemp k0) by lia. simpl. apply IH.
      exists k. split; [lia |]. split; [reflexivity |].
      split; [intros j Hj; apply Hin; lia |].
      split; [intros j Hj; apply Hemp; lia | assumption].
Qed.

(** X3.  From a square of the board, the pseudo-moves of a Bishop, Rook
    or Queen are exactly the moves, without promotion, along one of its
    directions to a square of the board that holds no piece of its colour
    and is reached over empty squares only: a slider never jumps. *)
Theorem slider_moves_iff g r c p mv :
  kind p = Bishop \/ kind p = Rook \/ kind p = Queen ->
  in_bounds r c = true ->
  (In mv (generate_pseudo_moves_from g (r, c) p) <->
   exists dr dc k,
     In (dr, dc) (directions (kind p)) /\ 1 <= k /\
     mv = ((r, c), (r + k * dr, c + k * dc), None) /\
     in_bounds (r + k * dr) (c + k * dc) = true /\
     clear_path g r c dr dc k /\
     occupied_by g (r + k * dr) (c + k * dc) (color p) = false).
Proof.
  intros Hk Hb.
  assert (Hgen : generate_pseudo_moves_from g (r, c) p = slider_moves g r c p).
  { unfold generate_pseudo_moves_from.
    destruct Hk as [-> | [-> | ->]]; reflexivity. }
  rewrite Hgen. unfold slider_moves. rewrite in_flat_map. split.
  - intros ([dr dc] & Hd & H). simpl fst in H. simpl snd in H.
    replace (r + dr) with (r + 1 * dr) in H by lia.
    replace (c + dc) with (c + 1 * dc) in H by lia.
    apply ray_iff in H as (k & Hk1 & -> & Hin & Hemp & Hocc).
    exists dr, dc, k. split; [assumption |]. split; [lia |].
    split; [reflexivity |]. split; [apply Hin; lia |].
    split; [exact Hemp | assumption].
  - intros (dr & dc & k & Hd & Hk1 & -> & Hbk & Hclear & Hocc).
    exists (dr, dc). split; [assumption |]. simpl fst. simpl snd.
    replace (r + dr) with (r + 1 * dr) by lia.
    replace (c + dc) with (c + 1 * dc) by lia.
    apply ray_iff. exists k.
    apply in_bounds_spec in Hb. apply in_bounds_spec in Hbk.
    assert (Hdir : In (dr, dc) (diagonals ++ orthogonals)).
    { unfold directions in Hd. apply in_app_or in Hd. apply in_or_app.
      destruct (kind p); destruct Hd as [Hd | Hd]; simpl in Hd; try tauto;
        simpl; tauto. }
    simpl in Hdir.
    split.
    { intuition (try congruence);
        match goal with H : (_, _) = (_, _) |- _ => injection H as <- <- end;
        simpl; lia. }
    split; [reflexivity |].
    split; [| split; [exact Hclear | assumption]].
    intros j Hj. apply in_bounds_spec.
    intuition (try congruence);
      match goal with H : (_, _) = (_, _) |- _ => injection H as <- <- end;
      lia.
Qed.

Lemma slider_moves_iff_witness :
  In ((5, 1), (5, 7), None)
     (generate_pseudo_moves_from (grid stalemate_board) (5, 1)
        (mkPiece Black Queen)) <->
  exists dr dc k,
    In (dr, dc) (directions (kind (mkPiece Black Queen))) /\ 1 <= k /\
    ((5, 1), (5, 7), None)
    = ((5, 1), (5 + k * dr, 1 + k * dc), @None PieceType) /\
    in_bounds (5 + k * dr) (1 + k * dc) = true /\
    clear_path (grid stalemate_board) 5 1 dr dc k /\
    occupied_by (grid stalemate_board) (5 + k * dr) (1 + k * dc)
                (color (mkPiece Black Queen)) = false.
Proof.
  apply (slider_moves_iff (grid stalemate_board) 5 1 (mkPiece Black Queen)).
  - right. right. reflexivity.
  - reflexivity.
Defined.

(** X4.  The pseudo-moves of a Pawn are exactly: one step forward onto an
    empty square; two steps forward from its starting row over an empty
    square onto an empty square; one step forward and one column aside
    onto a square that holds a piece of the other colour.  Forward is
    towards row 0 for White and row 7 for Black.  In particular a Pawn
    never lands diagonally on an empty square (no en passant). *)
Theorem pawn_moves_iff g r c p mv :
  kind p = Pawn ->
  (In mv (generate_pseudo_moves_from g (r, c) p) <->
   exists nr nc,
     mv = ((r, c), (nr, nc), promo_of nr) /\
     in_bounds nr nc = true /\
     ((nr = r + pawn_dir (color p) /\ nc = c /\ empty g nr nc = true) \/
      (nr = r + 2 * pawn_dir (color p) /\ nc = c /\
       r = pawn_start_row (color p) /\
       empty g (r + pawn_dir (color p)) c = true /\ empty g nr nc = true) \/
      (nr = r + pawn_dir (color p) /\ (nc = c - 1 \/ nc = c + 1) /\
       exists q, cell g nr nc = Some q /\ color q <> color p))).
Proof.
  intros Hk. unfold generate_pseudo_moves_from. rewrite Hk.
  assert (Hocc : forall nr nc,
            (negb (empty g nr nc) && negb (occupied_by g nr nc (color p))
             = true) <->
            exists q, cell g nr nc = Some q /\ color q <> color p).
  { intros nr nc. unfold empty, occupied_by.
    destruct (cell g nr nc) as [q |]; simpl.
    - rewrite negb_true_iff, <- not_true_iff_false, color_eqb_eq. split.
      + intros H. exists q. auto.
      + intros (q' & Hq & Hne). now injection Hq as <-.
    - split; [discriminate | intros (q & Hq & _); discriminate]. }
  unfold pawn_moves, pawn_dir, pawn_start_row. split.
  - intros H.
    destruct (color_eqb (color p) White); in_cases H; subst;
      match goal with
      | |- exists nr nc, (_, (?a, ?b), _) = _ /\ _ => exists a, b
      end;
      (split; [first [reflexivity | bools; subst; reflexivity] |]);
      (split; [bools; subst; apply in_bounds_spec; lia |]);
      try (left; bools; repeat split; auto; lia);
      try (right; left; bools; repeat split; auto; lia);
      (right; right; split; [lia |]; split; [lia |]; apply Hocc;
       bools; apply andb_true_iff; split;
       [now apply negb_true_iff | now apply negb_true_iff]).
  - intros (nr & nc & -> & Hb & Hcase).
    apply in_or_app.
    destruct Hcase as [(-> & -> & He) | [(-> & -> & Hr & He1 & He2)
                                        | (-> & Hnc & Hq)]].
    + left. rewrite Hb, He. simpl. now left.
    + left.
      assert (Hb1 : in_bounds (r + (if color_eqb (color p) White then -1 else 1)) c = true).
      { apply in_bounds_spec. apply in_bounds_spec in Hb.
        destruct (color_eqb (color p) White); lia. }
      rewrite Hb1, He1. simpl. right.
      rewrite Hr, Z.eqb_refl. simpl.
      rewrite <- Hr, He2. simpl. left.
      unfold promo_of. apply in_bounds_spec in Hb.
      destruct (color_eqb (color p) White); subst r; reflexivity.
    + right. apply Hocc in Hq. apply andb_true_iff in Hq as [Hq1 Hq2].
      simpl. apply in_or_app.
      destruct Hnc as [-> | ->]; [left | right];
        replace (c - 1) with (c + -1) in * by lia;
        rewrite Hb, Hq1, Hq2; simpl; try rewrite app_nil_r; now left.
Qed.

Lemma pawn_moves_iff_witness :
  In ((6, 4), (4, 4), None)
     (generate_pseudo_moves_from (grid new_board) (6, 4)
        (mkPiece White Pawn)) <->
  exists nr nc,
    ((6, 4), (4, 4), None) = ((6, 4), (nr, nc), promo_of nr) /\
    in_bounds nr nc = true /\
    ((nr = 6 + pawn_dir (color (mkPiece White Pawn)) /\ nc = 4 /\
      empty (grid new_board) nr nc = true) \/
     (nr = 6 + 2 * pawn_dir (color (mkPiece White Pawn)) /\ nc = 4 /\
      6 = pawn_start_row (color (mkPiece White Pawn)) /\
      empty (grid new_board) (6 + pawn_dir (color (mkPiece White Pawn))) 4
      = true /\
      empty (grid new_board) nr nc = true) \/
     (nr = 6 + pawn_dir (color (mkPiece White Pawn)) /\
      (nc = 4 - 1 \/ nc = 4 + 1) /\
      exists q, cell (grid new_board) nr nc = Some q /\
                color q <> color (mkPiece White Pawn))).
Proof.
  apply (pawn_moves_iff (grid new_board) 6 4 (mkPiece White Pawn)).
  reflexivity.
Defined.

(** X5.  Whatever the piece and the position, a pseudo-move starts on the
    square it was generated for, lands on a different square of the
    board, never on a piece of the mover's colour, and carries a
    promotion only for a Pawn, and then to a Queen. *)
Theorem pseudo_moves_are_well_formed g sq p mv :
  In mv (generate_pseudo_moves_from g sq p) ->
  mv_from mv = sq /\
  sq_in_bounds (mv_to mv) = true /\
  mv_to mv <> sq /\
  (forall q, piece_at g (mv_to mv) = Some q -> color q <> color p) /\
  (mv_promo mv = None \/ (mv_promo mv = Some Queen /\ kind p = Pawn)).
Proof.
  intros H. destruct (pseudo_moves_sound _ _ _ _ H) as (Hf & Ht & Hne & Ho & Hp).
  repeat split; auto.
  intros q Hq Hc. unfold occupied_by in Ho. unfold piece_at in Hq.
  rewrite Hq, Hc, color_eqb_refl in Ho. discriminate.
Qed.

Lemma pseudo_moves_are_well_formed_witness :
  mv_from ((7, 1), (5, 2), @None PieceType) = (7, 1) /\
  sq_in_bounds (mv_to ((7, 1), (5, 2), @None PieceType)) = true /\
  mv_to ((7, 1), (5, 2), @None PieceType) <> (7, 1) /\
  (forall q,
     piece_at (grid new_board) (mv_to ((7, 1), (5, 2), @None PieceType))
     = Some q -> color q <> color (mkPiece White Knight)) /\
  (mv_promo ((7, 1), (5, 2), @None PieceType) = None \/
   (mv_promo ((7, 1), (5, 2), @None PieceType) = Some Queen /\
    kind (mkPiece White Knight) = Pawn)).
Proof.
  apply (pseudo_moves_are_well_formed (grid new_board) (7, 1)
           (mkPiece White Knight)).
  vm_compute. right. left. reflexivity.
Defined.

(** X6.  [is_square_attacked_by] never reports a square that holds a
    piece of the attacking colour: a side does not "attack" its own
    pieces, so a defended piece is not seen as attacked by its
    defenders. *)
Theorem own_piece_is_never_attacked g sq q :
  piece_at g sq = Some q ->
  is_square_attacked_by g sq (color q) = false.
Proof.
  intros Hq. apply not_true_is_false. intros H.
  apply is_square_attacked_by_iff in H
    as (s & p & mv & _ & _ & Hc & Hin & Hto).
  destruct (pseudo_moves_sound _ _ _ _ Hin) as (_ & _ & _ & Ho & _).
  unfold occupied_by in Ho. unfold piece_at in Hq.
  rewrite Hto, Hq, Hc, color_eqb_refl in Ho. discriminate.
Qed.

Lemma own_piece_is_never_attacked_witness :
  is_square_attacked_by (grid new_board) (6, 4)
                        (color (mkPiece White Pawn)) = false.
Proof.
  apply (own_piece_is_never_attacked (grid new_board) (6, 4)
           (mkPiece White Pawn)).
  vm_compute. reflexivity.
Defined.

Lemma find_first_lookup {A} (f : A -> bool) (l : list A) (x : A) :
  find f l = Some x ->
  exists i, l !! i = Some x /\ f x = true /\
            forall j y, (j < i)%nat -> l !! j = Some y -> f y = false.
Proof.
  induction l as [| a l IH]; simpl; [discriminate |].
  destruct (f a) eqn:Ha.
  - intros H. injection H as <-. exists 0%nat.
    split; [reflexivity |]. split; [assumption |]. intros j y Hj. lia.
  - intros H. apply IH in H as (i & Hi & Hx & Hbefore).
    exists (S i). split; [exact Hi |]. split; [assumption |].
    intros [| j] y Hj Hy.
    + simpl in Hy. injection Hy as <-. assumption.
    + simpl in Hy. apply (Hbefore j); [lia | assumption].
Qed.

Lemma squares_lookup (sq : Square) :
  sq_in_bounds sq = true ->
  squares !! Z.to_nat (scan_index sq) = Some sq.
Proof.
  destruct sq as [r c]. unfold sq_in_bounds, scan_index. simpl fst. simpl snd.
  intros H. apply in_bounds_spec in H as [Hr Hc].
  assert (Hr' : r = 0 \/ r = 1 \/ r = 2 \/ r = 3 \/ r = 4 \/ r = 5 \/
                r = 6 \/ r = 7) by lia.
  assert (Hc' : c = 0 \/ c = 1 \/ c = 2 \/ c = 3 \/ c = 4 \/ c = 5 \/
                c = 6 \/ c = 7) by lia.
  destruct Hr' as [-> | [-> | [-> | [-> | [-> | [-> | [-> | ->]]]]]]];
    destruct Hc' as [-> | [-> | [-> | [-> | [-> | [-> | [-> | ->]]]]]]];
    reflexivity.
Qed.

Lemma squares_lookup_inv i (sq : Square) :
  squares !! i = Some sq ->
  sq_in_bounds sq = true /\ i = Z.to_nat (scan_index sq).
Proof.
  intros H.
  assert (Hin : sq_in_bounds sq = true).
  { apply in_squares. apply list_elem_of_In.
    eapply list_elem_of_lookup_2. eassumption. }
  split; [assumption |].
  pose proof (squares_lookup sq Hin) as H'.
  pose proof NoDup_squares as Hnd.
  rewrite NoDup_alt in Hnd. eapply Hnd; eassumption.
Qed.

(** X7.  [king_position] returns the first square, in row-major order,
    that holds a King of the colour: the square it returns is on the
    board and holds such a King, and no square scanned before it does. *)
Theorem king_position_is_first_in_scan g col k :
  king_position g col = Some k <->
  sq_in_bounds k = true /\
  piece_at g k = Some (mkPiece col King) /\
  forall sq, sq_in_bounds sq = true -> scan_index sq < scan_index k ->
             piece_at g sq <> Some (mkPiece col King).
Proof.
  split.
  - intros H. pose proof (king_position_some _ _ _ H) as [Hb Hk].
    split; [assumption |]. split; [now apply is_king_of_iff |].
    unfold king_position in H.
    apply find_first_lookup in H as (i & Hi & _ & Hbefore).
    apply squares_lookup_inv in Hi as [_ ->].
    intros sq Hsq Hlt Hking.
    apply is_king_of_iff in Hking.
    assert (Hf : is_king_of col (piece_at g sq) = false).
    { apply (Hbefore (Z.to_nat (scan_index sq)) sq).
      - destruct sq as [r c], k as [kr kc].
        unfold sq_in_bounds in *. simpl in Hsq, Hb.
        apply in_bounds_spec in Hsq. apply in_bounds_spec in Hb.
        unfold scan_index in *. simpl in *. lia.
      - now apply squares_lookup. }
    congruence.
  - intros (Hb & Hk & Hfirst).
    destruct (king_position g col) as [k' |] eqn:E.
    + pose proof (king_position_some _ _ _ E) as [Hb' Hk'].
      unfold king_position in E.
      apply find_first_lookup in E as (i & Hi & _ & Hbefore).
      apply squares_lookup_inv in Hi as [_ ->].
      apply is_king_of_iff in Hk'.
      destruct (Z.lt_trichotomy (scan_index k') (scan_index k))
        as [Hlt | [Heq | Hgt]].
      * exfalso. now apply (Hfirst k' Hb' Hlt).
      * f_equal. destruct k as [r c], k' as [r' c'].
        unfold sq_in_bounds in *. simpl in Hb, Hb'.
        apply in_bounds_spec in Hb. apply in_bounds_spec in Hb'.
        unfold scan_index in Heq. simpl in Heq. f_equal; lia.
      * exfalso.
        assert (Hf : is_king_of col (piece_at g k) = false).
        { apply (Hbefore (Z.to_nat (scan_index k)) k).
          - destruct k as [r c], k' as [r' c'].
            unfold sq_in_bounds in *. simpl in Hb, Hb'.
            apply in_bounds_spec in Hb. apply in_bounds_spec in Hb'.
            unfold scan_index in *. simpl in *. lia.
          - now apply squares_lookup. }
        apply is_king_of_iff in Hk. congruence.
    + rewrite king_position_none in E.
      apply is_king_of_iff in Hk. rewrite (E k Hb) in Hk. discriminate.
Qed.

Lemma king_position_is_first_in_scan_witness :
  king_position (grid new_board) White = Some (7, 4) <->
  sq_in_bounds (7, 4) = true /\
  piece_at (grid new_board) (7, 4) = Some (mkPiece White King) /\
  forall sq, sq_in_bounds sq = true -> scan_index sq < scan_index (7, 4) ->
             piece_at (grid new_board) sq <> Some (mkPiece White King).
Proof.
  apply (king_position_is_first_in_scan (grid new_board) White (7, 4)).
Defined.

(** X8.  [clone] returns a board equal, field by field and square by
    square, to the board it copies. *)
Theorem clone_is_a_copy b : clone b = b.
Proof.
  destruct b as [g t h f o w]. unfold clone. simpl. f_equal.
  induction g as [| row g IH]; [reflexivity |]. simpl. f_equal; [| exact IH].
  clear IH. induction row as [| p row IH]; [reflexivity |]. simpl.
  f_equal; [| exact IH]. destruct p as [[c k] |]; reflexivity.
Qed.

(** ** Move application and game state *)

(** X9.  On an 8x8 board, for a move between squares of the board whose
    origin holds a piece, [make_move] returns; afterwards the origin is
    empty, the destination (if not the origin) holds the moved piece, or
    the piece it promotes to, whatever stood there before, and every
    other square is as before. *)
Theorem make_move_moves_one_piece b mv :
  wf_grid (grid b) ->
  testable (grid b) mv ->
  exists b',
    make_move mv b = Ok (tt, b') /\
    wf_grid (grid b') /\
    piece_at (grid b') (mv_from mv) = None /\
    (mv_to mv <> mv_from mv ->
     piece_at (grid b') (mv_to mv) = arriving (grid b) mv) /\
    (forall sq, sq_in_bounds sq = true ->
       sq <> mv_from mv -> sq <> mv_to mv ->
       piece_at (grid b') sq = piece_at (grid b) sq).
Proof.
  intros Hwf (Hf & Ht & Hp). exists (after_move b mv).
  split; [apply make_move_ok; auto |].
  rewrite grid_after_move.
  destruct (apply_grid_applied _ mv Hwf Hf Ht) as [Hwf' Hc].
  split; [assumption |]. split; [| split].
  - now rewrite (Hc _ Hf), sq_eqb_refl.
  - intros Hne. apply sq_eqb_neq in Hne.
    now rewrite (Hc _ Ht), Hne, sq_eqb_refl.
  - intros sq Hsq Hn1 Hn2. apply sq_eqb_neq in Hn1, Hn2.
    now rewrite (Hc _ Hsq), Hn1, Hn2.
Qed.

Lemma make_move_moves_one_piece_witness :
  exists b',
    make_move ((6, 4), (4, 4), None) new_board = Ok (tt, b') /\
    wf_grid (grid b') /\
    piece_at (grid b') (mv_from ((6, 4), (4, 4), @None PieceType)) = None /\
    (mv_to ((6, 4), (4, 4), @None PieceType)
     <> mv_from ((6, 4), (4, 4), @None PieceType) ->
     piece_at (grid b') (mv_to ((6, 4), (4, 4), @None PieceType))
     = arriving (grid new_board) ((6, 4), (4, 4), None)) /\
    (forall sq, sq_in_bounds sq = true ->
       sq <> mv_from ((6, 4), (4, 4), @None PieceType) ->
       sq <> mv_to ((6, 4), (4, 4), @None PieceType) ->
       piece_at (grid b') sq = piece_at (grid new_board) sq).
Proof.
  apply (make_move_moves_one_piece new_board ((6, 4), (4, 4), None)).
  - apply wf_gridb_spec. vm_compute. reflexivity.
  - split; [vm_compute; reflexivity |].
    split; [vm_compute; reflexivity |].
    vm_compute. discriminate.
Defined.

(** X10.  [make_move] and [is_legal_move] do not check that the origin
    holds a piece.  From an empty origin on the board, a move without
    promotion is carried out: the destination is emptied and the turn
    passes; a move with a promotion raises [AttributeError]. *)
Theorem moving_from_an_empty_square b mv :
  wf_grid (grid b) ->
  sq_in_bounds (mv_from mv) = true -> sq_in_bounds (mv_to mv) = true ->
  piece_at (grid b) (mv_from mv) = None ->
  (mv_promo mv = None ->
   exists b', make_move mv b = Ok (tt, b') /\
              piece_at (grid b') (mv_to mv) = None /\
              turn b' = other (turn b)) /\
  (mv_promo mv <> None ->
   make_move mv b = Raise AttributeError /\
   forall col, is_legal_move mv col b = Raise AttributeError).
Proof.
  intros Hwf Hf Ht Hp. split.
  - intros Hpr. exists (after_move b mv).
    split; [apply make_move_ok; auto |].
    rewrite grid_after_move, turn_after_move. split; [| reflexivity].
    destruct (apply_grid_applied _ mv Hwf Hf Ht) as [_ Hc].
    rewrite (Hc _ Ht). destruct (sq_eqb _ _); [reflexivity |].
    rewrite sq_eqb_refl. unfold arriving. now rewrite Hpr.
  - intros Hpr. destruct mv as [[[r1 c1] [r2 c2]] promo].
    unfold mv_from, mv_to, mv_promo, sq_in_bounds, piece_at in *.
    simpl fst in *. simpl snd in *.
    destruct promo as [k |]; [| contradiction].
    unfold make_move, is_legal_move, bind.
    rewrite (get_cell_ok b r1 c1 Hwf Hf), (get_cell_ok b r2 c2 Hwf Ht), Hp.
    split; reflexivity.
Qed.

Lemma moving_from_an_empty_square_witness :
  (mv_promo ((4, 4), (1, 4), @None PieceType) = None ->
   exists b', make_move ((4, 4), (1, 4), None) new_board = Ok (tt, b') /\
              piece_at (grid b') (mv_to ((4, 4), (1, 4), @None PieceType))
              = None /\
              turn b' = other (turn new_board)) /\
  (mv_promo ((4, 4), (1, 4), @None PieceType) <> None ->
   make_move ((4, 4), (1, 4), None) new_board = Raise AttributeError /\
   forall col,
     is_legal_move ((4, 4), (1, 4), None) col new_board
     = Raise AttributeError).
Proof.
  apply (moving_from_an_empty_square new_board ((4, 4), (1, 4), None)).
  - apply wf_gridb_spec. vm_compute. reflexivity.
  - vm_compute. reflexivity.
  - vm_compute. reflexivity.
  - vm_compute. reflexivity.
Defined.

Lemma py_norm_8 i :
  py_norm 8 i = if index_ok i then Some (Z.to_nat (wrap i)) else None.
Proof.
  unfold py_norm, index_ok, wrap. simpl Z.of_nat.
  destruct (Z.ltb_spec i 0); destruct (Z.leb_spec (-8) i);
    destruct (Z.ltb_spec i 8); simpl;
    repeat match goal with
    | |- context [(?a <=? ?b)] => destruct (Z.leb_spec a b)
    | |- context [(?a <? ?b)] => destruct (Z.ltb_spec a b)
    end; simpl; try reflexivity; lia.
Qed.

Lemma index_ok_wrap i : index_ok (wrap i) = index_ok i.
Proof.
  unfold index_ok, wrap.
  destruct (Z.leb_spec (-8) i); destruct (Z.ltb_spec i 0); simpl;
    repeat match goal with
    | |- context [(?a <=? ?b)] => destruct (Z.leb_spec a b)
    | |- context [(?a <? ?b)] => destruct (Z.ltb_spec a b)
    end; simpl; try reflexivity; lia.
Qed.

Lemma wrap_wrap i : wrap (wrap i) = wrap i.
Proof.
  unfold wrap.
  destruct (Z.leb_spec (-8) i); destruct (Z.ltb_spec i 0); simpl;
    repeat match goal with
    | |- context [(?a <=? ?b)] => destruct (Z.leb_spec a b)
    | |- context [(?a <? ?b)] => destruct (Z.ltb_spec a b)
    end; simpl; try reflexivity; lia.
Qed.

Lemma wrap_in_range i : index_ok i = true -> 0 <= wrap i < 8.
Proof.
  unfold index_ok, wrap. intros H. apply andb_true_iff in H as [H1 H2].
  apply Z.leb_le in H1. apply Z.ltb_lt in H2.
  destruct (Z.leb_spec (-8) i); destruct (Z.ltb_spec i 0); simpl; lia.
Qed.

(** On an 8x8 grid a read succeeds exactly at valid Python indices, and
    reads the square the indices designate once wrapped. *)
Lemma grid_get_wf g r c :
  wf_grid g ->
  grid_get g r c =
    if index_ok r && index_ok c then Ok (cell g (wrap r) (wrap c))
    else Raise IndexError.
Proof.
  intros Hwf. pose proof Hwf as [Hlen _].
  unfold grid_get, py_get at 1. rewrite Hlen, py_norm_8.
  destruct (index_ok r) eqn:Hr; [| reflexivity].
  pose proof (wrap_in_range r Hr) as Hr'.
  destruct (index_ok c) eqn:Hc.
  - pose proof (wrap_in_range c Hc) as Hc'.
    assert (Hb : in_bounds (wrap r) (wrap c) = true)
      by (apply in_bounds_spec; lia).
    destruct (grid_get_in_bounds g _ _ Hwf Hb) as (row & Hrow & Hlr & Hp & _).
    rewrite Hrow. unfold py_get. rewrite Hlr, py_norm_8, Hc, Hp. reflexivity.
  - destruct (lookup_lt_is_Some_2 g (Z.to_nat (wrap r))) as [row Hrow];
      [lia |].
    rewrite Hrow. unfold py_get.
    rewrite (wf_grid_row _ _ _ Hwf Hrow), py_norm_8, Hc. reflexivity.
Qed.

Lemma grid_get_wrap g r c :
  wf_grid g -> grid_get g r c = grid_get g (wrap r) (wrap c).
Proof.
  intros Hwf. rewrite !(grid_get_wf g _ _ Hwf), !index_ok_wrap, !wrap_wrap.
  reflexivity.
Qed.

Lemma grid_set_wf g r c v :
  wf_grid g ->
  grid_set g r c v =
    if index_ok r && index_ok c
    then grid_set g (wrap r) (wrap c) v
    else Raise IndexError.
Proof.
  intros Hwf. pose proof Hwf as [Hlen _].
  unfold grid_set. rewrite Hlen, !py_norm_8, index_ok_wrap, wrap_wrap.
  destruct (index_ok r) eqn:Hr; [| reflexivity].
  pose proof (wrap_in_range r Hr) as Hr'.
  destruct (lookup_lt_is_Some_2 g (Z.to_nat (wrap r))) as [row Hrow];
    [lia |].
  rewrite Hrow, (wf_grid_row _ _ _ Hwf Hrow), !py_norm_8.
  rewrite index_ok_wrap, wrap_wrap.
  destruct (index_ok c); reflexivity.
Qed.

Lemma grid_set_keeps_wf g r c v g' :
  wf_grid g -> grid_set g r c v = Ok g' -> wf_grid g'.
Proof.
  intros Hwf H. rewrite (grid_set_wf g r c v Hwf) in H.
  destruct (index_ok r) eqn:Hr; [| discriminate].
  destruct (index_ok c) eqn:Hc; [| discriminate]. simpl in H.
  pose proof (wrap_in_range r Hr). pose proof (wrap_in_range c Hc).
  destruct (grid_set_in_bounds g (wrap r) (wrap c) v Hwf) as (g2 & Hs & Hw & _);
    [apply in_bounds_spec; lia |].
  congruence.
Qed.

Lemma grid_set_wrap g r c v :
  wf_grid g -> grid_set g r c v = grid_set g (wrap r) (wrap c) v.
Proof.
  intros Hwf. rewrite (grid_set_wf g r c v Hwf).
  rewrite (grid_set_wf g (wrap r) (wrap c) v Hwf).
  rewrite !index_ok_wrap, !wrap_wrap.
  destruct (index_ok r && index_ok c) eqn:E; [| reflexivity].
  apply andb_true_iff in E as [Hr Hc].
  pose proof (wrap_in_range r Hr). pose proof (wrap_in_range c Hc).
  rewrite (grid_set_wf g (wrap r) (wrap c) v Hwf).
  rewrite !index_ok_wrap, !wrap_wrap, Hr, Hc. reflexivity.
Qed.

Lemma get_cell_wrap b r c :
  wf_grid (grid b) -> get_cell r c b = get_cell (wrap r) (wrap c) b.
Proof. intros Hwf. unfold get_cell. now rewrite grid_get_wrap. Qed.

Lemma set_cell_wrap b r c v :
  wf_grid (grid b) -> set_cell r c v b = set_cell (wrap r) (wrap c) v b.
Proof. intros Hwf. unfold set_cell. now rewrite grid_set_wrap. Qed.

Lemma set_cell_keeps_wf b r c v u b' :
  wf_grid (grid b) -> set_cell r c v b = Ok (u, b') -> wf_grid (grid b').
Proof.
  intros Hwf H. unfold set_cell in H.
  destruct (grid_set (grid b) r c v) as [g' |] eqn:E; [| discriminate].
  injection H as _ <-. simpl. eapply grid_set_keeps_wf; eassumption.
Qed.

Lemma get_cell_state b r c p b' :
  get_cell r c b = Ok (p, b') -> b' = b.
Proof.
  unfold get_cell. destruct (grid_get _ _ _); [| discriminate].
  intros H. now injection H as _ <-.
Qed.

Lemma placed_piece_state piece promo b np b' :
  placed_piece piece promo b = Ok (np, b') -> b' = b.
Proof.
  unfold placed_piece. destruct promo; [destruct piece |];
    unfold ret, raise; intros H; try discriminate; now injection H as _ <-.
Qed.

(** X11.  Python's negative indices are accepted: on an 8x8 board
    [make_move] and [is_legal_move] treat a coordinate in [-8, -1] as
    that coordinate plus 8, so [(-1, c)] is the square [(7, c)]. *)
Theorem negative_coordinates_wrap_around b mv :
  wf_grid (grid b) ->
  make_move mv b = make_move (wrap_move mv) b /\
  forall col, is_legal_move mv col b = is_legal_move (wrap_move mv) col b.
Proof.
  intros Hwf. destruct mv as [[[r1 c1] [r2 c2]] promo].
  unfold wrap_move, mv_from, mv_to, mv_promo. simpl fst. simpl snd.
  split.
  - unfold make_move, bind.
    rewrite <- (get_cell_wrap b r1 c1 Hwf).
    destruct (get_cell r1 c1 b) as [[piece b1] |] eqn:E1; [| reflexivity].
    apply get_cell_state in E1. subst b1.
    rewrite <- (get_cell_wrap b r2 c2 Hwf).
    destruct (get_cell r2 c2 b) as [[captured b1] |] eqn:E2; [| reflexivity].
    apply get_cell_state in E2. subst b1.
    destruct (placed_piece piece promo b) as [[np b1] |] eqn:E3;
      [| reflexivity].
    apply placed_piece_state in E3. subst b1.
    rewrite <- (set_cell_wrap b r2 c2 np Hwf).
    destruct (set_cell r2 c2 np b) as [[u1 b1] |] eqn:E4; [| reflexivity].
    pose proof (set_cell_keeps_wf _ _ _ _ _ _ Hwf E4) as Hwf1.
    rewrite <- (set_cell_wrap b1 r1 c1 None Hwf1). reflexivity.
  - intros col. unfold is_legal_move, bind.
    rewrite <- (get_cell_wrap b r1 c1 Hwf).
    destruct (get_cell r1 c1 b) as [[piece b1] |] eqn:E1; [| reflexivity].
    apply get_cell_state in E1. subst b1.
    rewrite <- (get_cell_wrap b r2 c2 Hwf).
    destruct (get_cell r2 c2 b) as [[captured b1] |] eqn:E2; [| reflexivity].
    apply get_cell_state in E2. subst b1.
    destruct (placed_piece piece promo b) as [[np b1] |] eqn:E3;
      [| reflexivity].
    apply placed_piece_state in E3. subst b1.
    rewrite <- (set_cell_wrap b r2 c2 np Hwf).
    destruct (set_cell r2 c2 np b) as [[u1 b1] |] eqn:E4; [| reflexivity].
    pose proof (set_cell_keeps_wf _ _ _ _ _ _ Hwf E4) as Hwf1.
    rewrite <- (set_cell_wrap b1 r1 c1 None Hwf1).
    destruct (set_cell r1 c1 None b1) as [[u2 b2] |] eqn:E5; [| reflexivity].
    pose proof (set_cell_keeps_wf _ _ _ _ _ _ Hwf1 E5) as Hwf2.
    unfold gets.
    rewrite <- (set_cell_wrap b2 r1 c1 piece Hwf2).
    destruct (set_cell r1 c1 piece b2) as [[u3 b3] |] eqn:E6; [| reflexivity].
    pose proof (set_cell_keeps_wf _ _ _ _ _ _ Hwf2 E6) as Hwf3.
    rewrite <- (set_cell_wrap b3 r2 c2 captured Hwf3). reflexivity.
Qed.

Lemma negative_coordinates_wrap_around_witness :
  make_move ((-2, -4), (4, 4), None) new_board
  = make_move (wrap_move ((-2, -4), (4, 4), None)) new_board /\
  forall col,
    is_legal_move ((-2, -4), (4, 4), None) col new_board
    = is_legal_move (wrap_move ((-2, -4), (4, 4), None)) col new_board.
Proof.
  apply (negative_coordinates_wrap_around new_board ((-2, -4), (4, 4), None)).
  apply wf_gridb_spec. vm_compute. reflexivity.
Defined.

(** X12.  On an 8x8 board, a move with a coordinate outside [-8, 7]
    makes [make_move] and [is_legal_move] raise [IndexError]. *)
Theorem off_grid_coordinates_raise b mv :
  wf_grid (grid b) ->
  index_ok (fst (mv_from mv)) && index_ok (snd (mv_from mv)) &&
  (index_ok (fst (mv_to mv)) && index_ok (snd (mv_to mv))) = false ->
  make_move mv b = Raise IndexError /\
  forall col, is_legal_move mv col b = Raise IndexError.
Proof.
  intros Hwf Hbad. destruct mv as [[[r1 c1] [r2 c2]] promo].
  unfold mv_from, mv_to in Hbad. simpl in Hbad.
  unfold make_move, is_legal_move, bind, get_cell.
  rewrite !(grid_get_wf (grid b) r1 c1 Hwf).
  destruct (index_ok r1 && index_ok c1); [| split; reflexivity].
  simpl in Hbad. cbv beta iota.
  rewrite !(grid_get_wf (grid b) r2 c2 Hwf), Hbad. split; reflexivity.
Qed.

Lemma off_grid_coordinates_raise_witness :
  make_move ((6, 4), (8, 4), None) new_board = Raise IndexError /\
  forall col,
    is_legal_move ((6, 4), (8, 4), None) col new_board = Raise IndexError.
Proof.
  apply (off_grid_coordinates_raise new_board ((6, 4), (8, 4), None)).
  - apply wf_gridb_spec. vm_compute. reflexivity.
  - vm_compute. reflexivity.
Defined.

Lemma same_status_refl b : same_status b b.
Proof. now repeat split. Qed.

Lemma same_status_trans b1 b2 b3 :
  same_status b1 b2 -> same_status b2 b3 -> same_status b1 b3.
Proof. unfold same_status, same_clock, same_result. intuition congruence. Qed.

Lemma same_status_grid b g : same_status b (with_grid g b).
Proof. now repeat split. Qed.

(** What [make_move] does to the fields other than the grid, whenever it
    returns. *)
Lemma make_move_status b mv b' :
  make_move mv b = Ok (tt, b') ->
  turn b' = other (turn b) /\
  halfmove_clock b' = halfmove_clock b /\
  fullmove_number b' =
    (if color_eqb (turn b) Black then fullmove_number b + 1
     else fullmove_number b) /\
  (game_over b <> None -> same_result b b').
Proof.
  intros H. destruct mv as [[[r1 c1] [r2 c2]] promo].
  unfold make_move, bind in H.
  destruct (get_cell r1 c1 b) as [[piece b1] |] eqn:E1; [| discriminate].
  apply get_cell_state in E1. subst b1.
  destruct (get_cell r2 c2 b) as [[captured b1] |] eqn:E2; [| discriminate].
  apply get_cell_state in E2. subst b1.
  destruct (placed_piece piece promo b) as [[np b1] |] eqn:E3;
    [| discriminate].
  apply placed_piece_state in E3. subst b1.
  destruct (set_cell r2 c2 np b) as [[[] b1] |] eqn:E4; [| discriminate].
  apply (keeps_set_cell same_status same_status_grid) in E4.
  destruct (set_cell r1 c1 None b1) as [[[] b2] |] eqn:E5; [| discriminate].
  apply (keeps_set_cell same_status same_status_grid) in E5.
  pose proof (same_status_trans _ _ _ E4 E5)
    as ((Ht & Hh & Hn) & (Hg & Hw)).
  unfold modify, gets in H. cbn [turn with_turn] in H. rewrite Ht in H.
  assert (Hover : forall b3, game_over b3 <> None ->
                  update_game_state b3 = Ok (tt, b') -> b' = b3).
  { intros b3 Ho Hu. unfold update_game_state, bind, gets, ret in Hu.
    destruct (game_over b3); [| contradiction]. now injection Hu as <-. }
  destruct (turn b); cbn [other color_eqb] in *.
  - pose proof (keeps_update_game_state _ _ _ H) as (Ht' & Hh' & Hn').
    cbn in Ht', Hh', Hn'.
    repeat split; try congruence;
      apply Hover in H; [| simpl; congruence | | simpl; congruence];
      subst b'; simpl; congruence.
  - pose proof (keeps_update_game_state _ _ _ H) as (Ht' & Hh' & Hn').
    cbn in Ht', Hh', Hn'.
    repeat split; try congruence;
      apply Hover in H; [| simpl; congruence | | simpl; congruence];
      subst b'; simpl; congruence.
Qed.

Lemma game_state_after_idempotent b :
  game_state_after (game_state_after b) = game_state_after b.
Proof.
  destruct (game_over b) eqn:Hover.
  - assert (H : game_state_after b = b)
      by (unfold game_state_after; now rewrite Hover).
    now rewrite !H.
  - destruct (Nat.eqb (length (legal_moves_of (grid b) (turn b))) 0) eqn:Hlen.
    + assert (H : exists o w, game_state_after b = with_result (Some o) w b).
      { unfold game_state_after. rewrite Hover, Hlen.
        destruct (in_check _ _); eauto. }
      destruct H as (o & w & ->). reflexivity.
    + assert (H : game_state_after b = b)
        by (unfold game_state_after; now rewrite Hover, Hlen).
      now rewrite !H.
Qed.

(** X13.  Running [update_game_state] twice is the same as running it
    once, on every 8x8 board; in particular it changes nothing once
    [game_over] is set. *)
Theorem update_game_state_idempotent b :
  wf_grid (grid b) ->
  (update_game_state ;;; update_game_state) b = update_game_state b /\
  (game_over b <> None -> update_game_state b = Ok (tt, b)).
Proof.
  intros Hwf. unfold bind. rewrite (update_game_state_ok b Hwf).
  assert (Hwf' : wf_grid (grid (game_state_after b)))
    by now rewrite grid_game_state_after.
  rewrite (update_game_state_ok _ Hwf'). split.
  - now rewrite game_state_after_idempotent.
  - intros Ho. unfold game_state_after.
    destruct (game_over b); [reflexivity | contradiction].
Qed.

Lemma update_game_state_idempotent_witness :
  (update_game_state ;;; update_game_state) stalemate_board
  = update_game_state stalemate_board /\
  (game_over stalemate_board <> None ->
   update_game_state stalemate_board = Ok (tt, stalemate_board)).
Proof.
  apply (update_game_state_idempotent stalemate_board).
  apply wf_gridb_spec. vm_compute. reflexivity.
Defined.

(** X14.  [make_move] does not refuse a move on a finished game: when it
    returns, the turn has passed as usual, but [game_over] and [winner],
    once set, are left as they are. *)
Theorem game_over_is_sticky b mv b' :
  game_over b <> None ->
  make_move mv b = Ok (tt, b') ->
  game_over b' = game_over b /\ winner b' = winner b /\
  turn b' = other (turn b).
Proof.
  intros Ho H. destruct (make_move_status _ _ _ H) as (Ht & _ & _ & Hres).
  destruct (Hres Ho) as [Hg Hw]. auto.
Qed.

Lemma game_over_is_sticky_witness :
  game_over (board_after (fools_mate_moves ++ [((6, 0), (5, 0), None)]))
  = game_over (board_after fools_mate_moves) /\
  winner (board_after (fools_mate_moves ++ [((6, 0), (5, 0), None)]))
  = winner (board_after fools_mate_moves) /\
  turn (board_after (fools_mate_moves ++ [((6, 0), (5, 0), None)]))
  = other (turn (board_after fools_mate_moves)).
Proof.
  apply (game_over_is_sticky (board_after fools_mate_moves)
           ((6, 0), (5, 0), None)).
  - vm_compute. discriminate.
  - vm_compute. reflexivity.
Defined.

Lemma play_cons mv mvs b :
  play (mv :: mvs) b =
  match make_move mv b with
  | Ok (_, b1) => play mvs b1
  | Raise e => Raise e
  end.
Proof.
  unfold play. simpl. unfold bind.
  destruct (make_move mv b) as [[[] b1] |]; reflexivity.
Qed.

Lemma play_counts mvs :
  forall b b',
  play mvs b = Ok (tt, b') ->
  halfmove_clock b' = halfmove_clock b /\
  2 * fullmove_number b' + black_to_move b'
  = 2 * fullmove_number b + black_to_move b + Z.of_nat (length mvs).
Proof.
  induction mvs as [| mv mvs IH]; intros b b' H.
  - unfold play in H. simpl in H. injection H as <-. simpl. lia.
  - rewrite play_cons in H.
    destruct (make_move mv b) as [[[] b1] |] eqn:E; [| discriminate].
    apply make_move_status in E as (Ht & Hh & Hn & _).
    apply IH in H as [Hh' Hcount]. split; [congruence |].
    rewrite Hcount. unfold black_to_move. rewrite Ht, Hn.
    cbn [length]. destruct (turn b); cbn [other color_eqb]; lia.
Qed.

(** X15.  After any sequence of [make_move] calls that return, started
    from [Board()], the number of moves made is twice [fullmove_number]
    minus 2, plus one when Black is to move; so White is to move exactly
    after an even number of moves.  [halfmove_clock] is never advanced:
    it is still 0. *)
Theorem move_counters_after_play mvs b :
  play mvs new_board = Ok (tt, b) ->
  Z.of_nat (length mvs) = 2 * (fullmove_number b - 1) + black_to_move b /\
  (turn b = White <-> Nat.even (length mvs) = true) /\
  halfmove_clock b = 0.
Proof.
  intros H. apply play_counts in H as [Hh Hcount].
  change (halfmove_clock new_board) with 0 in Hh.
  change (fullmove_number new_board) with 1 in Hcount.
  change (black_to_move new_board) with 0 in Hcount.
  split; [lia |]. split; [| assumption].
  assert (H01 : black_to_move b = 0 \/ black_to_move b = 1)
    by (unfold black_to_move; destruct (color_eqb _ _); auto).
  rewrite <- Nat.negb_odd, negb_true_iff, <- not_true_iff_false.
  rewrite Nat.odd_spec. unfold black_to_move in *.
  destruct (turn b); cbn [color_eqb] in *; split; intros Hx;
    try discriminate; try reflexivity.
  - intros [k Hk]. lia.
  - exfalso. apply Hx. exists (Z.to_nat (fullmove_number b - 1)). lia.
Qed.

Lemma move_counters_after_play_witness :
  Z.of_nat (length fools_mate_moves)
  = 2 * (fullmove_number (board_after fools_mate_moves) - 1)
    + black_to_move (board_after fools_mate_moves) /\
  (turn (board_after fools_mate_moves) = White <->
   Nat.even (length fools_mate_moves) = true) /\
  halfmove_clock (board_after fools_mate_moves) = 0.
Proof.
  apply (move_counters_after_play fools_mate_moves).
  vm_compute. reflexivity.
Defined.

Lemma result_is_accurate_after b :
  game_over b = None -> winner b = None ->
  result_is_accurate (game_state_after b).
Proof.
  intros Hover Hwin. unfold result_is_accurate.
  rewrite grid_game_state_after, turn_game_state_after.
  unfold game_state_after, verdict. rewrite Hover.
  destruct (legal_moves_of (grid b) (turn b)); simpl.
  - destruct (in_check _ _); split; reflexivity.
  - split; assumption.
Qed.

Lemma reachable_result_is_accurate b :
  reachable b -> result_is_accurate b.
Proof.
  induction 1 as [| b b' Hr IH Hstep].
  - split; vm_compute; reflexivity.
  - pose proof (reachable_play_inv _ Hr) as (Hwf & _).
    destruct (legal_step_inv b b' Hwf Hstep) as (mv & Hin & ->).
    destruct IH as [Hover Hwin]. unfold verdict in Hover, Hwin.
    destruct (legal_moves_of (grid b) (turn b)) as [| m l] eqn:E;
      [contradiction |].
    unfold after_move. apply result_is_accurate_after.
    + cbn [turn with_turn with_grid]. destruct (color_eqb _ _); exact Hover.
    + cbn [turn with_turn with_grid]. destruct (color_eqb _ _); exact Hwin.
Qed.

(** X16.  On every board reached by play, [game_over] says what the
    position says: it is [None] exactly when the side to move has a legal
    move, ['checkmate'] exactly when it has none and is in check,
    ['stalemate'] exactly when it has none and is not in check; and at
    checkmate the winner is the side that is not to move. *)
Theorem game_over_reflects_position b :
  reachable b ->
  exists legal,
    generate_legal_moves (turn b) b = Ok (legal, b) /\
    (game_over b = None <-> legal <> []) /\
    (game_over b = Some checkmate <->
       legal = [] /\ in_check (grid b) (turn b) = true) /\
    (game_over b = Some stalemate <->
       legal = [] /\ in_check (grid b) (turn b) = false) /\
    (game_over b = Some checkmate -> winner b = Some (other (turn b))).
Proof.
  intros Hr. pose proof (reachable_play_inv _ Hr) as (Hwf & _).
  apply reachable_result_is_accurate in Hr as [Hover Hwin].
  exists (legal_moves_of (grid b) (turn b)).
  split; [now apply generate_legal_moves_ok |].
  unfold verdict in Hover, Hwin. rewrite Hover.
  destruct (legal_moves_of (grid b) (turn b)) as [| m l].
  - destruct (in_check (grid b) (turn b)); simpl in Hwin;
      repeat split; intros; try congruence; try tauto;
      try (destruct H; congruence).
  - repeat split; intros; try congruence; try (destruct H; congruence).
Qed.

Lemma game_over_reflects_position_witness :
  exists legal,
    generate_legal_moves (turn (board_after fools_mate_moves))
                         (board_after fools_mate_moves)
    = Ok (legal, board_after fools_mate_moves) /\
    (game_over (board_after fools_mate_moves) = None <-> legal <> []) /\
    (game_over (board_after fools_mate_moves) = Some checkmate <->
       legal = [] /\
       in_check (grid (board_after fools_mate_moves))
                (turn (board_after fools_mate_moves)) = true) /\
    (game_over (board_after fools_mate_moves) = Some stalemate <->
       legal = [] /\
       in_check (grid (board_after fools_mate_moves))
                (turn (board_after fools_mate_moves)) = false) /\
    (game_over (board_after fools_mate_moves) = Some checkmate ->
     winner (board_after fools_mate_moves)
     = Some (other (turn (board_after fools_mate_moves)))).
Proof.
  apply (game_over_reflects_position (board_after fools_mate_moves)).
  apply reachable_fools_mate.
Defined.

(** X17.  On an 8x8 board [generate_legal_moves] returns, leaving the
    board as it was, exactly the moves that are pseudo-moves of a piece of
    the colour standing on their origin and that leave that colour out of
    check once applied: no such move is missing from the list and no other
    move is in it. *)
Theorem generate_legal_moves_sound_and_complete b col :
  wf_grid (grid b) ->
  exists legal,
    generate_legal_moves col b = Ok (legal, b) /\
    forall mv,
      In mv legal <->
      exists p,
        sq_in_bounds (mv_from mv) = true /\
        piece_at (grid b) (mv_from mv) = Some p /\ color p = col /\
        In mv (generate_pseudo_moves_from (grid b) (mv_from mv) p) /\
        forall g', applied (grid b) mv g' -> in_check g' col = false.
Proof.
  intros Hwf. exists (legal_moves_of (grid b) col).
  split; [now apply generate_legal_moves_ok |].
  intros mv. rewrite in_legal_moves_of. split.
  - intros (sq & pc & Hsq & Hpc & Hc & Hin & Hchk).
    destruct (pseudo_moves_testable _ _ _ _ Hsq Hpc Hin) as (Hf & Ht & _).
    destruct (pseudo_moves_sound _ _ _ _ Hin) as (Hfrom & _).
    subst sq. exists pc. repeat split; auto.
    intros g' Happ. apply (applied_unique _ _ _ Hwf Hf Ht) in Happ.
    now subst g'.
  - intros (p & Hsq & Hp & Hc & Hin & Hsafe).
    destruct (pseudo_moves_testable _ _ _ _ Hsq Hp Hin) as (Hf & Ht & _).
    exists (mv_from mv), p. repeat split; auto.
    apply Hsafe. now apply apply_grid_applied.
Qed.

Lemma generate_legal_moves_sound_and_complete_witness :
  exists legal,
    generate_legal_moves White stalemate_board = Ok (legal, stalemate_board) /\
    forall mv,
      In mv legal <->
      exists p,
        sq_in_bounds (mv_from mv) = true /\
        piece_at (grid stalemate_board) (mv_from mv) = Some p /\
        color p = White /\
        In mv (generate_pseudo_moves_from (grid stalemate_board)
                 (mv_from mv) p) /\
        forall g', applied (grid stalemate_board) mv g' ->
                   in_check g' White = false.
Proof.
  apply (generate_legal_moves_sound_and_complete stalemate_board White).
  apply wf_gridb_spec. vm_compute. reflexivity.
Defined.

(** * Properties of the application *)

Lemma with_board_id gm : with_board (board gm) gm = gm.
Proof. now destruct gm. Qed.

Lemma on_board_get_cell gm r c :
  wf_grid (grid (board gm)) -> in_bounds r c = true ->
  on_board (get_cell r c) gm = Ok (cell (grid (board gm)) r c, gm).
Proof.
  intros Hwf Hb. unfold on_board.
  now rewrite (get_cell_ok _ _ _ Hwf Hb), with_board_id.
Qed.

Lemma on_board_generate gm col :
  wf_grid (grid (board gm)) ->
  on_board (generate_legal_moves col) gm
  = Ok (legal_moves_of (grid (board gm)) col, gm).
Proof.
  intros Hwf. unfold on_board.
  now rewrite (generate_legal_moves_ok _ col Hwf), with_board_id.
Qed.

Lemma select_square_ok gm sq :
  wf_grid (grid (board gm)) ->
  select_square sq gm
  = Ok (tt, with_selection (Some sq) (destinations_from (board gm) sq) gm).
Proof.
  intros Hwf. unfold select_square, gbind, gmodify, ggets.
  change (board (with_selected (Some sq) gm)) with (board gm).
  rewrite on_board_generate by exact Hwf.
  reflexivity.
Qed.

Lemma click_square_spec pos sq :
  click_square pos = Some sq <-> sq_in_bounds sq = true /\ in_tile sq pos.
Proof.
  destruct sq as [r c]. destruct pos as [x y].
  unfold click_square, in_tile, sq_in_bounds, BOARD_PIXELS, BOARD_SIZE,
    TILE_SIZE. simpl fst. simpl snd.
  destruct (Z.geb_spec y (80 * 8)) as [Hy | Hy].
  - split; [discriminate |]. intros [Hb Ht].
    apply in_bounds_spec in Hb. lia.
  - destruct (in_bounds (y / 80) (x / 80)) eqn:Hb; simpl.
    + apply in_bounds_spec in Hb. split.
      * intros Heq. injection Heq as <- <-.
        split; [apply in_bounds_spec; exact Hb |].
        Z.div_mod_to_equations. lia.
      * intros [_ Ht]. f_equal. f_equal; Z.div_mod_to_equations; lia.
    + split; [discriminate |]. intros [Hb' Ht].
      apply in_bounds_spec in Hb'.
      rewrite <- not_true_iff_false, in_bounds_spec in Hb.
      exfalso. apply Hb. Z.div_mod_to_equations. lia.
Qed.

(** X18.  The pixel of a click designates a square exactly when it lies
    in the tile that [draw_board] draws for that square of the board;
    clicks elsewhere (the information bar, or off the window) are
    ignored by [handle_click]. *)
Theorem clicks_map_to_tiles pos :
  (forall sq, click_square pos = Some sq <->
              sq_in_bounds sq = true /\ in_tile sq pos) /\
  (click_square pos = None ->
   forall now gm, handle_click pos now gm = Ok (tt, gm)).
Proof.
  split.
  - intros sq. apply click_square_spec.
  - intros Hnone now gm. unfold handle_click. now rewrite Hnone.
Qed.

Lemma clicks_map_to_tiles_witness :
  (forall sq, click_square (340, 500) = Some sq <->
              sq_in_bounds sq = true /\ in_tile sq (340, 500)) /\
  (click_square (340, 500) = None ->
   forall now gm, handle_click (340, 500) now gm = Ok (tt, gm)).
Proof. apply (clicks_map_to_tiles (340, 500)). Defined.

(** A legal move is determined by its origin and destination. *)
Lemma legal_move_unique g col mv1 mv2 :
  In mv1 (legal_moves_of g col) -> In mv2 (legal_moves_of g col) ->
  mv_from mv1 = mv_from mv2 -> mv_to mv1 = mv_to mv2 -> mv1 = mv2.
Proof.
  intros H1 H2 Hf Ht.
  apply in_legal_moves_of in H1 as (s1 & p1 & _ & Hp1 & _ & Hin1 & _).
  apply in_legal_moves_of in H2 as (s2 & p2 & _ & Hp2 & _ & Hin2 & _).
  destruct (pseudo_moves_sound _ _ _ _ Hin1) as (Hf1 & _ & _ & _ & Hpr1).
  destruct (pseudo_moves_sound _ _ _ _ Hin2) as (Hf2 & _ & _ & _ & Hpr2).
  assert (Hs : s1 = s2) by congruence. subst s2.
  assert (Hp : p1 = p2) by congruence. subst p2.
  assert (Hpromo : mv_promo mv1 = mv_promo mv2).
  { destruct (kind p1) eqn:Hk;
      try (destruct Hpr1 as [-> | [_ Hx1]]; [| congruence];
           destruct Hpr2 as [-> | [_ Hx2]]; [reflexivity | congruence]).
    assert (Hpawn : forall mv sq,
              In mv (generate_pseudo_moves_from g sq p1) ->
              mv_promo mv = promo_of (fst (mv_to mv))).
    { intros mv [r c] Hin. unfold generate_pseudo_moves_from in Hin.
      rewrite Hk in Hin. now apply pawn_moves_promo in Hin. }
    rewrite (Hpawn _ _ Hin1), (Hpawn _ _ Hin2). congruence. }
  destruct mv1 as [[f1 t1] pr1], mv2 as [[f2 t2] pr2].
  unfold mv_from, mv_to, mv_promo in *. simpl in *. congruence.
Qed.

Lemma legal_move_step b mv :
  reachable b -> In mv (legal_moves_of (grid b) (turn b)) ->
  make_move mv b = Ok (tt, after_move b mv) /\
  reachable (after_move b mv).
Proof.
  intros Hr Hin. pose proof (reachable_play_inv _ Hr) as (Hwf & _).
  pose proof Hin as Hin'.
  apply in_legal_moves_of in Hin' as (sq & pc & Hsq & Hpc & _ & Hps & _).
  destruct (pseudo_moves_testable _ _ _ _ Hsq Hpc Hps) as (Hf & Ht & Hp).
  pose proof (make_move_ok b mv Hwf Hf Ht (or_intror Hp)) as Hmk.
  split; [exact Hmk |].
  apply (reach_step b); [exact Hr |].
  exists (legal_moves_of (grid b) (turn b)), b, mv.
  split; [apply generate_legal_moves_ok; exact Hwf | split; assumption].
Qed.

Lemma on_board_make_move gm mv :
  reachable (board gm) ->
  In mv (legal_moves_of (grid (board gm)) (turn (board gm))) ->
  on_board (make_move mv) gm
  = Ok (tt, with_board (after_move (board gm) mv) gm).
Proof.
  intros Hr Hin. unfold on_board.
  destruct (legal_move_step _ _ Hr Hin) as [-> _]. reflexivity.
Qed.

(** What a click on a square of the board does, in closed form. *)
Lemma handle_click_ok gm pos now r c :
  reachable (board gm) ->
  click_square pos = Some (r, c) ->
  handle_click pos now gm =
    if is_own (piece_at (grid (board gm)) (r, c)) (turn (board gm)) then
      Ok (tt, with_selection (Some (r, c))
                (destinations_from (board gm) (r, c)) gm)
    else
      match selected gm with
      | None => Ok (tt, gm)
      | Some s =>
          match List.filter (fun mv => sq_eqb (mv_from mv) s &&
                                       sq_eqb (mv_to mv) (r, c))
                  (legal_moves_of (grid (board gm)) (turn (board gm))) with
          | mv :: _ =>
              let gm1 := with_selection None []
                           (with_board (after_move (board gm) mv) gm) in
              Ok (tt, if ai_to_move gm1
                      then with_pending (Some (now + ai_delay_ms gm1)) gm1
                      else gm1)
          | [] => Ok (tt, with_selection None [] gm)
          end
      end.
Proof.
  intros Hr Hclick. pose proof (reachable_play_inv _ Hr) as (Hwf & _).
  pose proof (proj1 (click_square_spec _ _) Hclick) as [Hb _].
  unfold handle_click. rewrite Hclick. unfold gbind at 1.
  rewrite (on_board_get_cell gm r c Hwf Hb).
  unfold gbind at 1, ggets at 1. unfold gbind at 1, ggets at 1.
  unfold piece_at. simpl fst. simpl snd.
  destruct (is_own (cell (grid (board gm)) r c) (turn (board gm))) eqn:Hown.
  - destruct (selected gm); rewrite select_square_ok by exact Hwf;
      reflexivity.
  - destruct (selected gm) as [s |]; [| reflexivity].
    unfold gbind at 1. rewrite (on_board_generate gm _ Hwf).
    destruct (List.filter _ _) as [| mv l] eqn:Hf; [reflexivity |].
    assert (Hin : In mv (legal_moves_of (grid (board gm)) (turn (board gm)))).
    { assert (Hin : In mv (mv :: l)) by now left.
      rewrite <- Hf in Hin. apply filter_In in Hin as [Hin _]. exact Hin. }
    unfold gbind at 1. rewrite (on_board_make_move gm mv Hr Hin).
    unfold gbind, gmodify, ggets, gret, ai_to_move. cbv zeta.
    cbn [board with_selection with_board ai_enabled_for_black ai_delay_ms].
    destruct (_ && _ && _); reflexivity.
Qed.

Lemma selection_ok_cleared gm b :
  selection_ok (with_selection None [] (with_board b gm)).
Proof. reflexivity. Qed.

Lemma selection_ok_unselected gm b t :
  selected gm = None -> selection_ok gm ->
  selection_ok (with_pending t (with_board b gm)).
Proof.
  destruct gm as [b0 s l r a d p]. unfold selection_ok. simpl.
  intros ->. trivial.
Qed.

Lemma selection_ok_selected gm sq :
  sq_in_bounds sq = true ->
  is_own (piece_at (grid (board gm)) sq) (turn (board gm)) = true ->
  turn (board gm) = White -> game_over (board gm) = None ->
  selection_ok (with_selection (Some sq) (destinations_from (board gm) sq) gm).
Proof.
  destruct gm as [b0 s l r a d p]. unfold selection_ok. simpl. auto.
Qed.

Lemma destinations_from_spec b s t :
  In t (destinations_from b s) <->
  exists mv, In mv (legal_moves_of (grid b) (turn b)) /\
             mv_from mv = s /\ mv_to mv = t.
Proof.
  unfold destinations_from. rewrite in_map_iff. split.
  - intros (mv & Ht & Hin). apply filter_In in Hin as [Hin Hs].
    apply sq_eqb_eq in Hs. eauto.
  - intros (mv & Hin & Hs & Ht). exists mv. split; [assumption |].
    apply filter_In. split; [assumption | now apply sq_eqb_eq].
Qed.

(** A click handled while White is to move and the game is on keeps the
    invariant. *)
Lemma handle_click_inv gm pos now :
  ui_inv gm -> turn (board gm) = White -> game_over (board gm) = None ->
  exists gm', handle_click pos now gm = Ok (tt, gm') /\ ui_inv gm'.
Proof.
  intros [Hr Hsel] Hturn Hover.
  destruct (click_square pos) as [[r c] |] eqn:Hclick.
  2:{ exists gm. split; [| split; assumption].
      unfold handle_click. rewrite Hclick. reflexivity. }
  rewrite (handle_click_ok gm pos now r c Hr Hclick).
  pose proof (proj1 (click_square_spec _ _) Hclick) as [Hb _].
  destruct (is_own _ _) eqn:Hown.
  - eexists. split; [reflexivity |]. split; [exact Hr |].
    apply selection_ok_selected; assumption.
  - destruct (selected gm) as [s |] eqn:Hs.
    + destruct (List.filter _ _) as [| mv l] eqn:Hf.
      * eexists. split; [reflexivity |]. split; [exact Hr | reflexivity].
      * assert (Hin : In mv (legal_moves_of (grid (board gm))
                               (turn (board gm)))).
        { assert (Hin : In mv (mv :: l)) by now left.
          rewrite <- Hf in Hin. apply filter_In in Hin as [Hin _].
          exact Hin. }
        destruct (legal_move_step _ _ Hr Hin) as [_ Hr'].
        eexists. split; [reflexivity |]. cbv zeta.
        destruct (ai_to_move _); split; try exact Hr'; reflexivity.
    + exists gm. split; [reflexivity |]. split; [exact Hr |].
      unfold selection_ok in *. rewrite Hs in *. exact Hsel.
Qed.

Lemma handle_event_inv gm ev now :
  ui_inv gm ->
  exists gm', handle_event ev now gm = Ok (tt, gm') /\ ui_inv gm'.
Proof.
  intros Hinv. destruct ev as [| pos |].
  - eexists. split; [reflexivity |]. destruct Hinv as [Hr Hsel].
    split; [exact Hr |]. exact Hsel.
  - unfold handle_event, gbind, ggets.
    destruct (game_over (board gm)) eqn:Hover.
    + eexists. split; [reflexivity |].
      split; [apply reach_init | reflexivity].
    + destruct (turn (board gm)) eqn:Hturn; cbn [color_eqb].
      * apply handle_click_inv; assumption.
      * exists gm. split; [reflexivity | assumption].
  - exists gm. split; [reflexivity | assumption].
Qed.

Lemma ai_has_a_move gm :
  ui_inv gm -> ai_to_move gm = true ->
  turn (board gm) = Black /\ game_over (board gm) = None /\
  selected gm = None /\
  legal_moves_of (grid (board gm)) Black <> [].
Proof.
  intros [Hr Hsel] Hai. unfold ai_to_move in Hai.
  apply andb_true_iff in Hai as [Hai Ht].
  apply andb_true_iff in Hai as [_ Ho].
  apply color_eqb_eq in Ht.
  assert (Hover : game_over (board gm) = None)
    by (destruct (game_over (board gm)); [discriminate | reflexivity]).
  split; [assumption |]. split; [assumption |]. split.
  - unfold selection_ok in Hsel.
    destruct (selected gm); [| reflexivity].
    destruct Hsel as (_ & _ & Hw & _). congruence.
  - apply reachable_result_is_accurate in Hr as [Hv _].
    rewrite Hover, Ht in Hv. unfold verdict in Hv.
    destruct (legal_moves_of (grid (board gm)) Black); [discriminate |].
    discriminate.
Qed.

Lemma update_inv gm now pick gm' :
  ui_inv gm -> update now pick gm = Ok (tt, gm') -> ui_inv gm'.
Proof.
  intros Hinv H. unfold update, gbind, ggets in H.
  fold (ai_to_move gm) in H.
  destruct (ai_to_move gm) eqn:Hai.
  2:{ injection H as <-. assumption. }
  destruct (ai_has_a_move gm Hinv Hai) as (Ht & Hover & Hs & Hlegal).
  destruct Hinv as [Hr Hsel].
  pose proof (reachable_play_inv _ Hr) as (Hwf & _).
  destruct (pending_ai_time gm) as [at_time |].
  - destruct (now >=? at_time).
    + unfold ai_move, gbind in H.
      rewrite (on_board_generate gm Black Hwf) in H.
      destruct (legal_moves_of (grid (board gm)) Black) as [| m l] eqn:El;
        [contradiction |].
      destruct (nth_error (m :: l) pick) as [mv |] eqn:Hnth;
        [| discriminate].
      apply nth_error_In in Hnth. rewrite <- El, <- Ht in Hnth.
      rewrite (on_board_make_move gm mv Hr Hnth) in H.
      unfold gmodify in H. injection H as <-.
      destruct (legal_move_step _ _ Hr Hnth) as [_ Hr'].
      split; [exact Hr' |].
      apply selection_ok_unselected; assumption.
    + injection H as <-. split; assumption.
  - unfold gmodify in H. injection H as <-. split; [exact Hr | exact Hsel].
Qed.

Lemma ui_reachable_inv gm : ui_reachable gm -> ui_inv gm.
Proof.
  induction 1 as [| ev now gm gm' _ IH H | now pick gm gm' _ IH H].
  - split; [apply reach_init | reflexivity].
  - destruct (handle_event_inv gm ev now IH) as (gm2 & H2 & Hinv).
    rewrite H2 in H. injection H as <-. exact Hinv.
  - eapply update_inv; eassumption.
Qed.

Lemma ui_reachable_e2 : ui_reachable (game_after [click_e2]).
Proof.
  apply (ui_event (LEFT_CLICK (340, 500)) 0 ChessGame_init);
    [apply ui_init | vm_compute; reflexivity].
Qed.

Lemma ui_reachable_e2_e4 : ui_reachable (game_after [click_e2; click_e4]).
Proof.
  apply (ui_event (LEFT_CLICK (340, 340)) 1000 (game_after [click_e2]));
    [apply ui_reachable_e2 | vm_compute; reflexivity].
Qed.

Lemma ui_reachable_e2_e4_tick :
  ui_reachable (game_after [click_e2; click_e4; Tick 1250 0]).
Proof.
  apply (ui_update 1250 0 (game_after [click_e2; click_e4]));
    [apply ui_reachable_e2_e4 | vm_compute; reflexivity].
Qed.

(** X19.  Whatever events and clock ticks the application has handled,
    its board is one that play by legal moves of the side to move reaches
    from the starting position: the handlers never apply anything else. *)
Theorem application_plays_legal_chess gm :
  ui_reachable gm -> reachable (board gm).
Proof. intros H. apply ui_reachable_inv in H. exact (proj1 H). Qed.

Lemma application_plays_legal_chess_witness :
  reachable (board (game_after [click_e2; click_e4; Tick 1250 0])).
Proof.
  apply (application_plays_legal_chess
           (game_after [click_e2; click_e4; Tick 1250 0])).
  apply ui_reachable_e2_e4_tick.
Defined.

(** X20.  The highlighted squares are always right: with no square
    selected nothing is highlighted; a selected square holds a piece of
    White, who is to move in a game that is not over, and the highlighted
    squares are exactly the destinations of the legal moves from it. *)
Theorem highlights_are_the_legal_destinations gm :
  ui_reachable gm ->
  match selected gm with
  | None => legal_moves_from_selected gm = []
  | Some s =>
      turn (board gm) = White /\ game_over (board gm) = None /\
      (exists p, piece_at (grid (board gm)) s = Some p /\ color p = White) /\
      exists legal,
        generate_legal_moves White (board gm) = Ok (legal, board gm) /\
        forall t, In t (legal_moves_from_selected gm) <->
                  exists mv, In mv legal /\ mv_from mv = s /\ mv_to mv = t
  end.
Proof.
  intros H. apply ui_reachable_inv in H as [Hr Hsel].
  pose proof (reachable_play_inv _ Hr) as (Hwf & _).
  unfold selection_ok in Hsel. destruct (selected gm) as [s |]; [| exact Hsel].
  destruct Hsel as (Hb & Hown & Ht & Hover & Hhints).
  split; [exact Ht |]. split; [exact Hover |]. split.
  - unfold is_own in Hown. destruct (piece_at _ s) as [p |]; [| discriminate].
    exists p. split; [reflexivity |]. apply color_eqb_eq in Hown. congruence.
  - exists (legal_moves_of (grid (board gm)) White).
    split; [apply generate_legal_moves_ok; exact Hwf |].
    intros t. rewrite Hhints, destinations_from_spec, Ht. reflexivity.
Qed.

Lemma highlights_are_the_legal_destinations_witness :
  match selected (game_after [click_e2]) with
  | None => legal_moves_from_selected (game_after [click_e2]) = []
  | Some s =>
      turn (board (game_after [click_e2])) = White /\
      game_over (board (game_after [click_e2])) = None /\
      (exists p, piece_at (grid (board (game_after [click_e2]))) s = Some p /\
                 color p = White) /\
      exists legal,
        generate_legal_moves White (board (game_after [click_e2]))
        = Ok (legal, board (game_after [click_e2])) /\
        forall t, In t (legal_moves_from_selected (game_after [click_e2])) <->
                  exists mv, In mv legal /\ mv_from mv = s /\ mv_to mv = t
  end.
Proof.
  apply (highlights_are_the_legal_destinations (game_after [click_e2])).
  apply ui_reachable_e2.
Defined.

Lemma update_total gm now pick :
  ui_inv gm ->
  (forall legal b1,
     generate_legal_moves Black (board gm) = Ok (legal, b1) ->
     (pick < length legal)%nat) ->
  exists gm', update now pick gm = Ok (tt, gm').
Proof.
  intros Hinv Hpick. unfold update, gbind, ggets. fold (ai_to_move gm).
  destruct (ai_to_move gm) eqn:Hai; [| eexists; reflexivity].
  destruct (ai_has_a_move gm Hinv Hai) as (Ht & Hover & Hs & Hlegal).
  destruct Hinv as [Hr Hsel].
  pose proof (reachable_play_inv _ Hr) as (Hwf & _).
  destruct (pending_ai_time gm) as [at_time |]; [| eexists; reflexivity].
  destruct (now >=? at_time); [| eexists; reflexivity].
  unfold ai_move, gbind. rewrite (on_board_generate gm Black Hwf).
  specialize (Hpick _ _ (generate_legal_moves_ok _ Black Hwf)).
  destruct (legal_moves_of (grid (board gm)) Black) as [| m l] eqn:El;
    [contradiction |].
  destruct (nth_error (m :: l) pick) as [mv |] eqn:Hnth.
  - apply nth_error_In in Hnth. rewrite <- El, <- Ht in Hnth.
    rewrite (on_board_make_move gm mv Hr Hnth). eexists. reflexivity.
  - apply nth_error_None in Hnth. lia.
Qed.

(** X21.  The handlers never raise: in every state the application can
    be in, [handle_events] handles any event, and [update] returns
    whenever the random draw is an index of the list of legal moves. *)
Theorem handlers_never_raise gm :
  ui_reachable gm ->
  (forall ev now, exists gm', handle_event ev now gm = Ok (tt, gm')) /\
  (forall now pick,
     (forall legal b1,
        generate_legal_moves Black (board gm) = Ok (legal, b1) ->
        (pick < length legal)%nat) ->
     exists gm', update now pick gm = Ok (tt, gm')).
Proof.
  intros H. apply ui_reachable_inv in H. split.
  - intros ev now. destruct (handle_event_inv gm ev now H) as (gm' & H' & _).
    eauto.
  - intros now pick Hpick. apply update_total; assumption.
Qed.

Lemma handlers_never_raise_witness :
  (forall ev now,
     exists gm',
       handle_event ev now (game_after [click_e2; click_e4]) = Ok (tt, gm')) /\
  (forall now pick,
     (forall legal b1,
        generate_legal_moves Black (board (game_after [click_e2; click_e4]))
        = Ok (legal, b1) ->
        (pick < length legal)%nat) ->
     exists gm',
       update now pick (game_after [click_e2; click_e4]) = Ok (tt, gm')).
Proof.
  apply (handlers_never_raise (game_after [click_e2; click_e4])).
  apply ui_reachable_e2_e4.
Defined.

(** X22.  Whenever [update] lets the opponent move (it is enabled, the
    game is not over, Black is to move), Black has a legal move, so the
    [if not legal] branch of [ai_move] is never taken from there; and no
    square is selected. *)
Theorem opponent_always_has_a_move gm :
  ui_reachable gm -> ai_to_move gm = true ->
  selected gm = None /\
  exists legal,
    generate_legal_moves Black (board gm) = Ok (legal, board gm) /\
    legal <> [].
Proof.
  intros H Hai. apply ui_reachable_inv in H.
  destruct (ai_has_a_move gm H Hai) as (_ & _ & Hs & Hlegal).
  destruct H as [Hr _]. pose proof (reachable_play_inv _ Hr) as (Hwf & _).
  split; [exact Hs |].
  exists (legal_moves_of (grid (board gm)) Black).
  split; [apply generate_legal_moves_ok; exact Hwf | exact Hlegal].
Qed.

Lemma opponent_always_has_a_move_witness :
  selected (game_after [click_e2; click_e4]) = None /\
  exists legal,
    generate_legal_moves Black (board (game_after [click_e2; click_e4]))
    = Ok (legal, board (game_after [click_e2; click_e4])) /\
    legal <> [].
Proof.
  apply (opponent_always_has_a_move (game_after [click_e2; click_e4])).
  - apply ui_reachable_e2_e4.
  - vm_compute. reflexivity.
Defined.

(** X23.  With a square selected, a click on a highlighted square plays
    the legal move from the selected square to it, clears the selection
    and, when the opponent is then to move, schedules its reply
    [ai_delay_ms] later; a click on any other square leaves the board as
    it is. *)
Theorem click_on_highlighted_square_moves gm s pos t now :
  ui_reachable gm -> selected gm = Some s -> click_square pos = Some t ->
  (In t (legal_moves_from_selected gm) ->
   exists legal mv b' gm',
     generate_legal_moves (turn (board gm)) (board gm)
     = Ok (legal, board gm) /\
     In mv legal /\ mv_from mv = s /\ mv_to mv = t /\
     make_move mv (board gm) = Ok (tt, b') /\
     handle_event (LEFT_CLICK pos) now gm = Ok (tt, gm') /\
     board gm' = b' /\ selected gm' = None /\
     legal_moves_from_selected gm' = [] /\
     pending_ai_time gm' =
       if ai_to_move gm' then Some (now + ai_delay_ms gm)
       else pending_ai_time gm) /\
  (~ In t (legal_moves_from_selected gm) ->
   exists gm', handle_event (LEFT_CLICK pos) now gm = Ok (tt, gm') /\
               board gm' = board gm).
Proof.
  intros H Hs Hclick. apply ui_reachable_inv in H as [Hr Hsel].
  pose proof (reachable_play_inv _ Hr) as (Hwf & _).
  unfold selection_ok in Hsel. rewrite Hs in Hsel.
  destruct Hsel as (Hb & Hown & Ht & Hover & Hhints).
  destruct t as [r c].
  assert (Hev : handle_event (LEFT_CLICK pos) now gm
                = handle_click pos now gm).
  { unfold handle_event, gbind, ggets. now rewrite Hover, Ht. }
  rewrite Hev, (handle_click_ok gm pos now r c Hr Hclick), Hs.
  rewrite Hhints. split.
  - intros Hin. apply destinations_from_spec in Hin as (mv & Hin & Hf & Hto).
    assert (Hnot : is_own (piece_at (grid (board gm)) (r, c))
                          (turn (board gm)) = false).
    { pose proof Hin as Hin'.
      apply in_legal_moves_of in Hin' as (sq & pc & _ & _ & Hc & Hps & _).
      destruct (pseudo_moves_sound _ _ _ _ Hps) as (_ & _ & _ & Ho & _).
      rewrite Hto, Hc in Ho. exact Ho. }
    rewrite Hnot.
    destruct (List.filter _ _) as [| mv0 l] eqn:Hfil.
    { exfalso.
      assert (Hx : In mv (List.filter
                (fun mv => sq_eqb (mv_from mv) s && sq_eqb (mv_to mv) (r, c))
                (legal_moves_of (grid (board gm)) (turn (board gm))))).
      { apply filter_In. split; [exact Hin |].
        apply andb_true_iff. split; now apply sq_eqb_eq. }
      rewrite Hfil in Hx. contradiction. }
    assert (Hx : In mv0 (mv0 :: l)) by (left; reflexivity).
    rewrite <- Hfil in Hx. apply filter_In in Hx as [Hin0 Hsq].
    apply andb_true_iff in Hsq as [Hf0 Ht0].
    apply sq_eqb_eq in Hf0. apply sq_eqb_eq in Ht0.
    destruct (legal_move_step _ _ Hr Hin0) as [Hmk _].
    exists (legal_moves_of (grid (board gm)) (turn (board gm))), mv0,
           (after_move (board gm) mv0).
    eexists.
    split; [apply generate_legal_moves_ok; exact Hwf |].
    split; [exact Hin0 |]. split; [exact Hf0 |]. split; [exact Ht0 |].
    split; [exact Hmk |]. split; [reflexivity |]. cbv zeta.
    set (gm1 := with_selection None []
                  (with_board (after_move (board gm) mv0) gm)).
    destruct (ai_to_move gm1) eqn:E.
    + change (ai_to_move (with_pending (Some (now + ai_delay_ms gm1)) gm1))
        with (ai_to_move gm1).
      rewrite E. repeat split.
    + rewrite E. repeat split.
  - intros Hnin.
    destruct (is_own (piece_at (grid (board gm)) (r, c)) (turn (board gm)));
      [eexists; split; reflexivity |].
    destruct (List.filter _ _) as [| mv0 l] eqn:Hfil;
      [eexists; split; reflexivity |].
    exfalso. apply Hnin.
    assert (Hx : In mv0 (mv0 :: l)) by (left; reflexivity).
    rewrite <- Hfil in Hx. apply filter_In in Hx as [Hin0 Hsq].
    apply andb_true_iff in Hsq as [Hf0 Ht0].
    apply sq_eqb_eq in Hf0. apply sq_eqb_eq in Ht0.
    apply destinations_from_spec. eauto.
Qed.

Lemma click_on_highlighted_square_moves_witness :
  (In (4, 4) (legal_moves_from_selected (game_after [click_e2])) ->
   exists legal mv b' gm',
     generate_legal_moves (turn (board (game_after [click_e2])))
                          (board (game_after [click_e2]))
     = Ok (legal, board (game_after [click_e2])) /\
     In mv legal /\ mv_from mv = (6, 4) /\ mv_to mv = (4, 4) /\
     make_move mv (board (game_after [click_e2])) = Ok (tt, b') /\
     handle_event (LEFT_CLICK (340, 340)) 1000 (game_after [click_e2])
     = Ok (tt, gm') /\
     board gm' = b' /\ selected gm' = None /\
     legal_moves_from_selected gm' = [] /\
     pending_ai_time gm' =
       if ai_to_move gm'
       then Some (1000 + ai_delay_ms (game_after [click_e2]))
       else pending_ai_time (game_after [click_e2])) /\
  (~ In (4, 4) (legal_moves_from_selected (game_after [click_e2])) ->
   exists gm',
     handle_event (LEFT_CLICK (340, 340)) 1000 (game_after [click_e2])
     = Ok (tt, gm') /\
     board gm' = board (game_after [click_e2])).
Proof.
  apply (click_on_highlighted_square_moves (game_after [click_e2])
           (6, 4) (340, 340) (4, 4) 1000).
  - apply ui_reachable_e2.
  - vm_compute. reflexivity.
  - vm_compute. reflexivity.
Defined.

(** X24.  Among the moves [generate_legal_moves] returns, a move is
    determined by its origin and its destination: the promotion is not a
    choice.  So the candidates [handle_click] collects for a pair of
    squares are all the same move. *)
Theorem legal_move_determined_by_its_squares b col :
  wf_grid (grid b) ->
  exists legal,
    generate_legal_moves col b = Ok (legal, b) /\
    forall mv1 mv2,
      In mv1 legal -> In mv2 legal ->
      mv_from mv1 = mv_from mv2 -> mv_to mv1 = mv_to mv2 -> mv1 = mv2.
Proof.
  intros Hwf. exists (legal_moves_of (grid b) col).
  split; [apply generate_legal_moves_ok; exact Hwf |].
  intros mv1 mv2. apply legal_move_unique.
Qed.

Lemma legal_move_determined_by_its_squares_witness :
  exists legal,
    generate_legal_moves White promotion_board = Ok (legal, promotion_board) /\
    forall mv1 mv2,
      In mv1 legal -> In mv2 legal ->
      mv_from mv1 = mv_from mv2 -> mv_to mv1 = mv_to mv2 -> mv1 = mv2.
Proof.
  apply (legal_move_determined_by_its_squares promotion_board White).
  apply wf_gridb_spec. vm_compute. reflexivity.
Defined.

(** X25.  On every board reached by play both Kings are found by
    [king_position], so [in_check] never takes its [if not kpos] exit
    there, and the side that has just moved is not in check. *)
Theorem kings_are_found_and_mover_is_safe b :
  reachable b ->
  (exists k, king_position (grid b) White = Some k) /\
  (exists k, king_position (grid b) Black = Some k) /\
  in_check (grid b) (other (turn b)) = false.
Proof.
  intros H. apply reachable_play_inv in H as (_ & [kw Hw] & [kb Hb] & Hc).
  split; [exists kw; now apply king_position_sole |].
  split; [exists kb; now apply king_position_sole | exact Hc].
Qed.

Lemma kings_are_found_and_mover_is_safe_witness :
  (exists k,
     king_position (grid (board_after fools_mate_moves)) White = Some k) /\
  (exists k,
     king_position (grid (board_after fools_mate_moves)) Black = Some k) /\
  in_check (grid (board_after fools_mate_moves))
           (other (turn (board_after fools_mate_moves))) = false.
Proof.
  apply (kings_are_found_and_mover_is_safe (board_after fools_mate_moves)).
  apply reachable_fools_mate.
Defined.

Lemma filter_length_update {A} (f f' : A -> bool) (l : list A) (a : A) :
  NoDup l -> In a l ->
  (forall x, In x l -> x <> a -> f' x = f x) ->
  (length (List.filter f' l) + Nat.b2n (f a)
   = length (List.filter f l) + Nat.b2n (f' a))%nat.
Proof.
  induction l as [| x l IH]; intros Hnd Hin Hsame; [contradiction |].
  apply NoDup_cons in Hnd as [Hx Hnd].
  assert (Hxl : ~ In x l) by (intros Hc; apply Hx; now apply list_elem_of_In).
  simpl. destruct Hin as [-> | Hin].
  - assert (Heq : List.filter f' l = List.filter f l).
    { apply filter_ext_in. intros y Hy. apply Hsame; [now right |].
      intros ->. contradiction. }
    rewrite Heq. destruct (f a), (f' a); simpl; lia.
  - assert (Hne : x <> a) by (intros ->; contradiction).
    rewrite (Hsame x (or_introl eq_refl) Hne).
    specialize (IH Hnd Hin (fun y Hy => Hsame y (or_intror Hy))).
    destruct (f x); simpl; lia.
Qed.

Lemma material_apply_grid g col mv :
  wf_grid g -> In mv (legal_moves_of g col) ->
  count_pieces (apply_grid g mv) col = count_pieces g col /\
  (count_pieces (apply_grid g mv) (other col)
   + (if empty g (fst (mv_to mv)) (snd (mv_to mv)) then 0 else 1)
   = count_pieces g (other col))%nat.
Proof.
  intros Hwf Hin.
  apply in_legal_moves_of in Hin as (sq & pc & Hsq & Hpc & Hc & Hps & _).
  destruct (pseudo_moves_testable _ _ _ _ Hsq Hpc Hps) as (Hf & Ht & Hp).
  destruct (pseudo_moves_sound _ _ _ _ Hps) as (Hfrom & _ & Hne & Ho & Hpr).
  destruct (apply_grid_applied _ mv Hwf Hf Ht) as [_ Happ].
  subst sq.
  assert (Harr : exists q, arriving g mv = Some q /\ color q = col).
  { unfold arriving. rewrite Hpc.
    destruct (mv_promo mv); eexists; split; try reflexivity; assumption. }
  destruct Harr as (q & Harr & Hq).
  set (g' := apply_grid g mv) in *.
  (* the grid with only the destination changed *)
  set (mid := fun c0 (x : Square) =>
          if sq_eqb x (mv_to mv)
          then occupied_by g' (fst x) (snd x) c0
          else occupied_by g (fst x) (snd x) c0).
  assert (Hcount : forall c0,
     (count_pieces g' c0
      + Nat.b2n (occupied_by g (fst (mv_from mv)) (snd (mv_from mv)) c0)
      + Nat.b2n (occupied_by g (fst (mv_to mv)) (snd (mv_to mv)) c0)
      = count_pieces g c0
        + Nat.b2n (occupied_by g' (fst (mv_from mv)) (snd (mv_from mv)) c0)
        + Nat.b2n (occupied_by g' (fst (mv_to mv)) (snd (mv_to mv)) c0))%nat).
  { intros c0. unfold count_pieces.
    pose proof (filter_length_update
      (fun x => occupied_by g (fst x) (snd x) c0) (mid c0) squares
      (mv_to mv) NoDup_squares (proj2 (in_squares _) Ht)) as H1.
    pose proof (filter_length_update
      (mid c0) (fun x => occupied_by g' (fst x) (snd x) c0) squares
      (mv_from mv) NoDup_squares (proj2 (in_squares _) Hf)) as H2.
    assert (Hmid_to : mid c0 (mv_to mv)
              = occupied_by g' (fst (mv_to mv)) (snd (mv_to mv)) c0)
      by (unfold mid; now rewrite sq_eqb_refl).
    assert (Hmid_from : mid c0 (mv_from mv)
              = occupied_by g (fst (mv_from mv)) (snd (mv_from mv)) c0).
    { unfold mid. destruct (sq_eqb (mv_from mv) (mv_to mv)) eqn:E;
        [| reflexivity].
      apply sq_eqb_eq in E. congruence. }
    rewrite Hmid_to in H1. rewrite Hmid_from in H2.
    assert (Hoth : forall x, In x squares -> x <> mv_from mv ->
                   x <> mv_to mv ->
                   occupied_by g' (fst x) (snd x) c0
                   = occupied_by g (fst x) (snd x) c0).
    { intros x Hx Hn1 Hn2. apply in_squares in Hx.
      apply sq_eqb_neq in Hn1, Hn2. unfold occupied_by.
      pose proof (Happ x Hx) as Hcell. unfold piece_at in Hcell.
      now rewrite Hcell, Hn1, Hn2. }
    lapply H1.
    2:{ intros x Hx Hn. unfold mid.
        apply sq_eqb_neq in Hn. now rewrite Hn. }
    lapply H2.
    2:{ intros x Hx Hn. unfold mid.
        destruct (sq_eqb x (mv_to mv)) eqn:E; [reflexivity |].
        apply sq_eqb_neq in E. now apply Hoth. }
    lia. }
  assert (Hfrom' : forall c0,
            occupied_by g' (fst (mv_from mv)) (snd (mv_from mv)) c0 = false).
  { intros c0. unfold occupied_by.
    pose proof (Happ _ Hf) as Hcell. unfold piece_at in Hcell.
    now rewrite Hcell, sq_eqb_refl. }
  assert (Hto' : forall c0,
            occupied_by g' (fst (mv_to mv)) (snd (mv_to mv)) c0
            = color_eqb col c0).
  { intros c0. unfold occupied_by.
    pose proof (Happ _ Ht) as Hcell. unfold piece_at in Hcell.
    apply sq_eqb_neq in Hne.
    rewrite Hcell, Hne, sq_eqb_refl, Harr, Hq. reflexivity. }
  assert (Hfrom0 : forall c0,
            occupied_by g (fst (mv_from mv)) (snd (mv_from mv)) c0
            = color_eqb col c0).
  { intros c0. unfold occupied_by. unfold piece_at in Hpc.
    now rewrite Hpc, Hc. }
  rewrite Hc in Ho. split.
  - pose proof (Hcount col) as H.
    rewrite Hfrom', Hto', Hfrom0, Ho, color_eqb_refl in H. simpl in H. lia.
  - pose proof (Hcount (other col)) as H.
    rewrite Hfrom', Hto', Hfrom0 in H.
    assert (Hco : color_eqb col (other col) = false) by now destruct col.
    rewrite Hco in H. simpl in H.
    assert (Hemp : occupied_by g (fst (mv_to mv)) (snd (mv_to mv)) (other col)
                   = negb (empty g (fst (mv_to mv)) (snd (mv_to mv)))).
    { unfold occupied_by, empty in *.
      destruct (cell g (fst (mv_to mv)) (snd (mv_to mv))) as [x |];
        [| reflexivity].
      simpl. destruct (color x), col; simpl in *; congruence. }
    rewrite Hemp in H.
    destruct (empty g (fst (mv_to mv)) (snd (mv_to mv))); simpl in H; lia.
Qed.


(** X26.  A legal move keeps the number of pieces of the side that
    moves, and takes exactly one piece from the other side when its
    destination is occupied, none otherwise: material never grows, and a
    promotion replaces the pawn. *)
Theorem legal_move_and_material b col legal b1 mv b' :
  wf_grid (grid b) ->
  generate_legal_moves col b = Ok (legal, b1) -> In mv legal ->
  make_move mv b = Ok (tt, b') ->
  count_pieces (grid b') col = count_pieces (grid b) col /\
  (count_pieces (grid b') (other col)
   + (if empty (grid b) (fst (mv_to mv)) (snd (mv_to mv)) then 0 else 1)
   = count_pieces (grid b) (other col))%nat.
Proof.
  intros Hwf Hgen Hin Hmk.
  rewrite (generate_legal_moves_ok b col Hwf) in Hgen.
  injection Hgen as <- <-.
  pose proof Hin as Hin'.
  apply in_legal_moves_of in Hin' as (sq & pc & Hsq & Hpc & _ & Hps & _).
  destruct (pseudo_moves_testable _ _ _ _ Hsq Hpc Hps) as (Hf & Ht & Hp).
  rewrite (make_move_ok b mv Hwf Hf Ht (or_intror Hp)) in Hmk.
  injection Hmk as <-. rewrite grid_after_move.
  apply material_apply_grid; assumption.
Qed.

Lemma legal_move_and_material_witness :
  count_pieces (grid (board_after fools_mate_moves)) Black
  = count_pieces (grid (board_after before_mate)) Black /\
  (count_pieces (grid (board_after fools_mate_moves)) (other Black)
   + (if empty (grid (board_after before_mate))
               (fst (mv_to mating_move)) (snd (mv_to mating_move))
      then 0 else 1)
   = count_pieces (grid (board_after before_mate)) (other Black))%nat.
Proof.
  apply (legal_move_and_material
           (board_after before_mate) Black
           (legal_moves_of (grid (board_after before_mate)) Black)
           (board_after before_mate) mating_move).
  - apply wf_gridb_spec. vm_compute. reflexivity.
  - vm_compute. reflexivity.
  - vm_compute. repeat (first [left; reflexivity | right]).
  - vm_compute. reflexivity.
Defined.

(** X27.  On every board reached by play each side has at most sixteen
    pieces. *)
Theorem at_most_sixteen_pieces b :
  reachable b ->
  (count_pieces (grid b) White <= 16)%nat /\
  (count_pieces (grid b) Black <= 16)%nat.
Proof.
  induction 1 as [| b b' Hr IH Hstep].
  - split; vm_compute; lia.
  - pose proof (reachable_play_inv _ Hr) as (Hwf & _).
    destruct (legal_step_inv b b' Hwf Hstep) as (mv & Hin & ->).
    rewrite grid_after_move.
    destruct (material_apply_grid _ _ _ Hwf Hin) as [Hown Hoth].
    destruct IH as [Hw Hb].
    destruct (turn b); cbn [other] in *; split; lia.
Qed.

Lemma at_most_sixteen_pieces_witness :
  (count_pieces (grid (board_after fools_mate_moves)) White <= 16)%nat /\
  (count_pieces (grid (board_after fools_mate_moves)) Black <= 16)%nat.
Proof.
  apply (at_most_sixteen_pieces (board_after fools_mate_moves)).
  apply reachable_fools_mate.
Defined.
